(** * compass-radar: reactive adapters, geodesic math, history compactor

    A shallow embedding of the core of the compass-radar component:
    - [calculateBearing], [distance], [parseLocationEvent] and
      [localStorageValue] (components/compass-radar.ts),
    - the [$recordHistory] computation, [addBookmark], [clearBookmarks],
    - [asyncComputed] and [listeningSignal] (async-signal.ts).

    JavaScript numbers are idealised as real numbers: [Math.sin], [Math.cos],
    [Math.sqrt], [Math.max], [Math.min] are the functions of the same name
    on [R]; rounding, NaN and signed zeros are outside the model.

    A value read back from [localStorage] is of the type of its store, or
    [null], or some other value that is not an array; a signal ignores a
    value that is the one it holds.

    The file has three parts: the model (definitions only), the properties
    proved about it, and further properties of the code. *)

From Stdlib Require Import Reals Lra Lia ZArith List.
From stdpp Require Import base option list gmap strings.

Local Open Scope R_scope.

(** * Part I: the model *)

(** ** JavaScript number operations *)

Module JS.

(** [x < y] as a boolean test. *)
Definition lt (x y : R) : bool := if Rlt_dec x y then true else false.

Definition Math_max (x y : R) : R := Rmax x y.
Definition Math_min (x y : R) : R := Rmin x y.

(** Rounding toward zero, the quotient that [%] uses. *)
Definition trunc (r : R) : Z :=
  if Rle_dec 0 r then Int_part r else (- Int_part (- r))%Z.

(** [x % m]: the remainder keeps the sign of the dividend. *)
Definition rem (x m : R) : R := x - m * IZR (trunc (x / m)).

(** [Math.atan2(y, x)]. *)
Definition Math_atan2 (y x : R) : R :=
  if Rlt_dec 0 x then atan (y / x)
  else if Rlt_dec x 0 then
    (if Rle_dec 0 y then atan (y / x) + PI else atan (y / x) - PI)
  else if Rlt_dec 0 y then PI / 2
  else if Rlt_dec y 0 then - (PI / 2)
  else 0.

End JS.

(** ** Geodesic math *)

Definition EARTH_RADIUS : R := 6371000.

(** [type Coord = [lat: number, lon: number]], in radians. *)
Definition Coord : Type := R * R.

Definition calculateBearing (origin other : Coord) : R :=
  let dlon := other.2 - origin.2 in
  let x := sin dlon * cos other.1 in
  let y := cos origin.1 * sin other.1
           - sin origin.1 * cos other.1 * cos dlon in
  let bearing :=
    JS.rem (JS.rem (JS.Math_atan2 x y) (2 * PI) + 2 * PI) (2 * PI) in
  bearing.

Definition distance (first second : Coord) : R :=
  let dlat := second.1 - first.1 in
  let dlon := second.2 - first.2 in
  let a := sin (dlat / 2) ^ 2
           + cos first.1 * cos second.1 * sin (dlon / 2) ^ 2 in
  let c := 2 * JS.Math_atan2 (sqrt a) (sqrt (1 - a)) in
  let distance := EARTH_RADIUS * c in
  distance.

(** ** The initial bearing, as geometry

    What "the initial bearing, measured clockwise from true north" says, to
    compare [calculateBearing] with. A coordinate is a point of the unit
    sphere; [eastAt] and [northAt] are the unit vectors that point east and
    north at it, in the plane tangent to the sphere. The great circle from
    [origin] to [other] leaves [origin] in the direction of [other] as seen
    in that plane: [headingEast] and [headingNorth] are its two parts. An
    angle [theta] measured clockwise from north points east by [sin theta]
    and north by [cos theta]. *)

Definition Vector : Type := R * R * R.

Definition dot (u v : Vector) : R :=
  u.1.1 * v.1.1 + u.1.2 * v.1.2 + u.2 * v.2.

Definition onSphere (c : Coord) : Vector :=
  (cos c.1 * cos c.2, cos c.1 * sin c.2, sin c.1).

Definition eastAt (c : Coord) : Vector := (- sin c.2, cos c.2, 0).

Definition northAt (c : Coord) : Vector :=
  (- sin c.1 * cos c.2, - sin c.1 * sin c.2, cos c.1).

Definition headingEast (origin other : Coord) : R :=
  dot (onSphere other) (eastAt origin).

Definition headingNorth (origin other : Coord) : R :=
  dot (onSphere other) (northAt origin).

(** ** Geolocation values and exceptions *)

(** [GeolocationPosition]: degrees, metres, milliseconds. *)
Record GeolocationCoordinates : Type := {
  latitude : R;
  longitude : R;
  accuracy : R;
}.

Record GeolocationPosition : Type := {
  coords : GeolocationCoordinates;
  timestamp : R;
}.

Record GeolocationPositionError : Type := {
  code : nat;
  message : string;
}.

(** What the geolocation watch pushes. The value of [geolocation.get()] is an
    [option Location]: [None] is [undefined], before the first push. *)
Inductive Location : Type :=
| Position (position : GeolocationPosition)
| PositionError (error : GeolocationPositionError).

(** Thrown values: a [GeolocationPositionError] thrown as it is, an [Error]
    with its message, the [SyntaxError] of [JSON.parse], or the [TypeError]
    of an array operation on a value that is not an array. *)
Inductive Exception : Type :=
| ThrownPositionError (error : GeolocationPositionError)
| ThrownError (msg : string)
| ThrownSyntaxError
| ThrownTypeError.

Inductive Result (A : Type) : Type :=
| Return (a : A)
| Throw (e : Exception).

Arguments Return {A} a.
Arguments Throw {A} e.

Definition isThrow {A : Type} (r : Result A) : bool :=
  match r with Throw _ => true | Return _ => false end.

Definition parseLocationEvent (event : option Location) : Result Coord :=
  match event with
  | Some (PositionError error) => Throw (ThrownPositionError error)
  | None => Throw (ThrownError "No location available")
  | Some (Position event) =>
      let coord : Coord :=
        (latitude (coords event) / 180 * PI,
         longitude (coords event) / 180 * PI) in
      Return coord
  end.

(** ** Persisted records *)

Module LocationBookmark.
Record t : Type := mk {
  coord : Coord;
  hue : R;
  label : option string;
  createdAt : option R;
}.
End LocationBookmark.

Module LocationHistoryEntry.
Record t : Type := mk {
  coord : Coord;
  accuracy : R;
  timestamp : R;
}.
End LocationHistoryEntry.

Definition MAX_HISTORY_LENGTH : nat := 100.

(** ** Stored values

    [localStorage] is shared with the rest of the page, and [JSON.parse]
    returns whatever the stored text denotes: the declared type [T] of a
    store is not checked when the text is read back. A value that is not a
    [T] is [null], or a number, a boolean or an object that is not an array,
    named by the text it was parsed from. Stored strings, and stored arrays
    of other things than the records of the store, are outside the
    model. *)
Inductive Foreign : Type :=
| ForeignNull
| ForeignOther (text : string).

(** What the variable [value] of a store can hold besides [undefined]. *)
Inductive Stored (T : Type) : Type :=
| OfType (value : T)
| NotOfType (foreign : Foreign).

Arguments OfType {T} value.
Arguments NotOfType {T} foreign.

(** [JSON.stringify] and [JSON.parse] at the type of a stored value;
    [JSON_parse] is [None] where [JSON.parse] throws a [SyntaxError]. *)
Class JSON (T : Type) : Type := {
  JSON_stringify : T -> string;
  JSON_parse : string -> option (Stored T);
}.

(** [value ?? []] used as an array: [undefined] and [null] give the empty
    array, and the first array operation on any other value that is not an
    array ([history.at], the spread of [addBookmark]) throws a
    [TypeError]. *)
Definition asArray {A : Type} (value : option (Stored (list A)))
  : Result (list A) :=
  match value with
  | None => Return []
  | Some (NotOfType ForeignNull) => Return []
  | Some (OfType array) => Return array
  | Some (NotOfType (ForeignOther _)) => Throw ThrownTypeError
  end.

(** The array [value ?? []] is when it is one, and the empty array
    otherwise. *)
Definition arrayOf {A : Type} (value : option (Stored (list A))) : list A :=
  match value with
  | Some (OfType array) => array
  | _ => []
  end.

(** ** [localStorageValue]

    The closure's state is its variable [value]; [localStorage] is the
    browser's string map, shared by every store. *)

Module localStorageValue.
Section Store.
Context {T : Type} `{!JSON T}.
Variable key : string.
Variable defaultValue : option T.

(** [get()]: returns [value], after filling it from the backing record or
    the default when it is [undefined]. An empty saved string is falsy.
    Whatever [JSON.parse] returns becomes the [value], of the type of the
    store or not. *)
Definition get (localStorage : gmap string string) (value : option (Stored T))
  : Result (option (Stored T)) :=
  match value with
  | Some _ => Return value
  | None =>
      match localStorage !! key with
      | Some savedValue =>
          if String.eqb savedValue "" then Return (OfType <$> defaultValue)
          else match JSON_parse savedValue with
               | Some parsed => Return (Some parsed)
               | None => Throw ThrownSyntaxError
               end
      | None => Return (OfType <$> defaultValue)
      end
  end.

(** [set(newValue)]: the new [value] and the new [localStorage]. *)
Definition set (newValue : T) (localStorage : gmap string string)
  : option (Stored T) * gmap string string :=
  (Some (OfType newValue), <[key := JSON_stringify newValue]> localStorage).

(** [clear()]. *)
Definition clear (localStorage : gmap string string)
  : option (Stored T) * gmap string string :=
  (None, delete key localStorage).

End Store.
End localStorageValue.

(** ** The component's stores *)

(** [bookmarks] and [locationHistory] hold the [value] of the two stores,
    both built without a default value. *)
Record CompassRadar : Type := {
  localStorage : gmap string string;
  bookmarks : option (Stored (list LocationBookmark.t));
  locationHistory : option (Stored (list LocationHistoryEntry.t));
}.

Definition bookmarksKey : string := "location-bookmarks".
Definition locationHistoryKey : string := "location-history".

(** A component in a browser with nothing stored. *)
Definition emptyComponent : CompassRadar :=
  {| localStorage := ∅; bookmarks := None; locationHistory := None |}.

(** ** [$recordHistory] *)

(** The entry built from the sample alone. *)
Definition sampleEntry (coord : Coord) (location : GeolocationPosition)
  : LocationHistoryEntry.t :=
  {| LocationHistoryEntry.coord := coord;
     LocationHistoryEntry.accuracy := accuracy (coords location);
     LocationHistoryEntry.timestamp := timestamp location |}.

(** The test of the [if]: the part after [lastEntry &&]. *)
Definition mergeCondition (lastEntry : LocationHistoryEntry.t)
    (coord : Coord) (location : GeolocationPosition) : bool :=
  JS.lt (distance coord (LocationHistoryEntry.coord lastEntry))
        (JS.Math_max (LocationHistoryEntry.accuracy lastEntry)
                     (accuracy (coords location)))
  && JS.lt (timestamp location - LocationHistoryEntry.timestamp lastEntry)
           30000.

(** The entry of the merging branch. *)
Definition mergedEntry (lastEntry : LocationHistoryEntry.t)
    (coord : Coord) (location : GeolocationPosition)
  : LocationHistoryEntry.t :=
  let lastCoord := LocationHistoryEntry.coord lastEntry in
  let lastAccuracy := LocationHistoryEntry.accuracy lastEntry in
  let coordMergeT :=
    JS.Math_min (accuracy (coords location)) lastAccuracy
    / JS.Math_max (accuracy (coords location)) lastAccuracy
    * 0.5 in
  let coordMerge : Coord :=
    if JS.lt (accuracy (coords location)) lastAccuracy
    then (coord.1 * (1 - coordMergeT) + lastCoord.1 * coordMergeT,
          coord.2 * (1 - coordMergeT) + lastCoord.2 * coordMergeT)
    else (lastCoord.1 * (1 - coordMergeT) + coord.1 * coordMergeT,
          lastCoord.2 * (1 - coordMergeT) + coord.2 * coordMergeT) in
  {| LocationHistoryEntry.coord := coordMerge;
     LocationHistoryEntry.accuracy :=
       JS.Math_min (accuracy (coords location)) lastAccuracy;
     LocationHistoryEntry.timestamp :=
       (timestamp location + LocationHistoryEntry.timestamp lastEntry) * 0.5 |}.

(** [history.splice(0, history.length - MAX_HISTORY_LENGTH)] under its
    guard. *)
Definition spliceHistory (history : list LocationHistoryEntry.t)
  : list LocationHistoryEntry.t :=
  if (MAX_HISTORY_LENGTH <? length history)%nat
  then drop (length history - MAX_HISTORY_LENGTH) history
  else history.

(** The array handed to [locationHistory.set]: [history] is what
    [locationHistory.get() ?? []] gave, [coord] the parsed sample. *)
Definition nextHistory (history : list LocationHistoryEntry.t)
    (coord : Coord) (location : GeolocationPosition)
  : list LocationHistoryEntry.t :=
  let history := spliceHistory history in
  match last history with
  | Some lastEntry =>
      if mergeCondition lastEntry coord location
      then removelast history ++ [mergedEntry lastEntry coord location]
      else history ++ [sampleEntry coord location]
  | None => history ++ [sampleEntry coord location]
  end.

Definition recordHistory {historyJSON : JSON (list LocationHistoryEntry.t)}
    (location : option Location) (this : CompassRadar)
  : Result (option Location) * CompassRadar :=
  match location with
  | Some (Position position) =>
      match parseLocationEvent location with
      | Throw e => (Throw e, this)
      | Return coord =>
          match localStorageValue.get locationHistoryKey None
                  (localStorage this) (locationHistory this) with
          | Throw e => (Throw e, this)
          | Return value =>
              match asArray value with
              | Throw e =>
                  (Throw e,
                   {| localStorage := localStorage this;
                      bookmarks := bookmarks this;
                      locationHistory := value |})
              | Return history =>
                  let '(value', localStorage') :=
                    localStorageValue.set locationHistoryKey
                      (nextHistory history coord position)
                      (localStorage this) in
                  (Return location,
                   {| localStorage := localStorage';
                      bookmarks := bookmarks this;
                      locationHistory := value' |})
              end
          end
      end
  | _ => (Return location, this)
  end.

(** The component after the compactor has seen the locations of a list, one
    after the other, whether a call returned or threw. *)
Definition recordAll {historyJSON : JSON (list LocationHistoryEntry.t)}
    (locations : list (option Location)) (this : CompassRadar)
  : CompassRadar :=
  foldl (fun this location => (recordHistory location this).2) this locations.

(** The coordinate [parseLocationEvent] returns for a position. *)
Definition positionCoord (position : GeolocationPosition) : Coord :=
  (latitude (coords position) / 180 * PI,
   longitude (coords position) / 180 * PI).

(** The compactor working on the array alone, one position at a time. *)
Definition compactAll (history : list LocationHistoryEntry.t)
    (positions : list GeolocationPosition) : list LocationHistoryEntry.t :=
  foldl (fun history position =>
           nextHistory history (positionCoord position) position)
        history positions.

(** Raw, non-mergeable samples: none of the positions passes the merge test
    against the entry of the one before it ([lastEntry] is the entry before
    the first). *)
Fixpoint nonMergeable (lastEntry : option LocationHistoryEntry.t)
    (positions : list GeolocationPosition) : Prop :=
  match positions with
  | [] => True
  | position :: rest =>
      match lastEntry with
      | Some lastEntry =>
          mergeCondition lastEntry (positionCoord position) position = false
      | None => True
      end
      /\ nonMergeable
           (Some (sampleEntry (positionCoord position) position)) rest
  end.

(** A fix at latitude 0, longitude 0, accurate to one metre, taken
    [30000 * i] ms after the first. *)
Definition rawSample (i : nat) : GeolocationPosition :=
  {| coords := {| latitude := 0; longitude := 0; accuracy := 1 |};
     timestamp := 30000 * INR i |}.

Definition rawSamples (n : nat) : list GeolocationPosition :=
  map rawSample (seq 0 n).

(** A codec for examples that never read a stored text back. *)
Definition writeOnlyJSON {T : Type} : JSON T :=
  {| JSON_stringify := fun _ => "[]"%string; JSON_parse := fun _ => None |}.

(** ** Bookmark store *)

(** [addBookmark(point)]; [random] is the result of [Math.random()] and
    [now] that of [Date.now()]. *)
Definition addBookmark `{!JSON (list LocationBookmark.t)}
    (point : Coord) (random now : R) (this : CompassRadar)
  : Result unit * CompassRadar :=
  let hue := random * 360 in
  match localStorageValue.get bookmarksKey None
          (localStorage this) (bookmarks this) with
  | Throw e => (Throw e, this)
  | Return value =>
      match asArray value with
      | Throw e =>
          (Throw e,
           {| localStorage := localStorage this;
              bookmarks := value;
              locationHistory := locationHistory this |})
      | Return existing =>
          let '(value', localStorage') :=
            localStorageValue.set bookmarksKey
              (existing
               ++ [ {| LocationBookmark.coord := point;
                       LocationBookmark.hue := hue;
                       LocationBookmark.label := None;
                       LocationBookmark.createdAt := Some now |} ])
              (localStorage this) in
          (Return tt,
           {| localStorage := localStorage';
              bookmarks := value';
              locationHistory := locationHistory this |})
      end
  end.

Definition clearBookmarks (this : CompassRadar) : CompassRadar :=
  let '(value', localStorage') :=
    localStorageValue.clear (T := list LocationBookmark.t)
      bookmarksKey (localStorage this) in
  {| localStorage := localStorage';
     bookmarks := value';
     locationHistory := locationHistory this |}.

(** [this.bookmarks.get()], as the renderer calls it: the value read and the
    component with the store's [value] filled. *)
Definition getBookmarks `{!JSON (list LocationBookmark.t)}
    (this : CompassRadar)
  : Result (option (Stored (list LocationBookmark.t))) * CompassRadar :=
  match localStorageValue.get bookmarksKey None
          (localStorage this) (bookmarks this) with
  | Throw e => (Throw e, this)
  | Return value =>
      (Return value,
       {| localStorage := localStorage this;
          bookmarks := value;
          locationHistory := locationHistory this |})
  end.

(** ** [listeningSignal]

    The state of one adapter: the signal [sigState], the closure variables
    [cleanup] and [used], and the memo of the returned [computed]. The
    computed re-runs its callback when it is read after [sigState] changed
    (and on its first read), and otherwise returns the value it computed
    last. [sigState.set(value)] changes the signal only when [value] is not
    the value it holds already, by [Object.is]: equality on [T] stands for
    [Object.is], so that two event objects are two values of [T].

    [setTimeout] callbacks run later, in the order they were set, and all of
    them are the same closure over [used] and [cleanup]: [timers] counts
    those not yet run. [setup] and the teardown it returns belong to the
    caller; the model counts their calls. [setup] does not call [update]
    before it returns. *)

Module listeningSignal.
Section Adapter.
Context {T : Type} `{!EqDecision T}.

Record State : Type := {
  sigState : option T;
  cleanup : option nat;
  used : bool;
  memo : option (option T);
  timers : nat;
  setupCalls : nat;
  teardownCalls : nat;
}.

(** [listeningSignal(setup)] just returned. *)
Definition init : State :=
  {| sigState := None; cleanup := None; used := false; memo := None;
     timers := 0; setupCalls := 0; teardownCalls := 0 |}.

(** [cleanup = setup(update)]: the captured teardown is named by the number
    of the [setup] call that returned it. *)
Definition subscribe (s : State) : State :=
  {| sigState := sigState s;
     cleanup := Some (setupCalls s);
     used := used s;
     memo := memo s;
     timers := timers s;
     setupCalls := S (setupCalls s);
     teardownCalls := teardownCalls s |}.

(** The callback of the computed: subscribe when there is no [cleanup], set
    [used], read the signal. *)
Definition callback (s : State) : option T * State :=
  let s := match cleanup s with
           | None => subscribe s
           | Some _ => s
           end in
  (sigState s,
   {| sigState := sigState s;
      cleanup := cleanup s;
      used := true;
      memo := Some (sigState s);
      timers := timers s;
      setupCalls := setupCalls s;
      teardownCalls := teardownCalls s |}).

(** A read of the derived value: [.get()] on the computed. *)
Definition read (s : State) : option T * State :=
  match memo s with
  | Some value => (value, s)
  | None => callback s
  end.

(** The [update] function handed to [setup], called with a pushed value:
    [used = false], [sigState.set(value)], [setTimeout(...)]. The signal
    holds [value] afterwards; the computed has to recompute only when that
    is a change. *)
Definition update (value : T) (s : State) : State :=
  let changed := negb (bool_decide (sigState s = Some value)) in
  {| sigState := Some value;
     cleanup := cleanup s;
     used := false;
     memo := if changed then None else memo s;
     timers := S (timers s);
     setupCalls := setupCalls s;
     teardownCalls := teardownCalls s |}.

(** [cleanup(); cleanup = undefined]. *)
Definition unsubscribe (s : State) : State :=
  {| sigState := sigState s;
     cleanup := None;
     used := used s;
     memo := memo s;
     timers := timers s;
     setupCalls := setupCalls s;
     teardownCalls := S (teardownCalls s) |}.

(** The body of the [setTimeout] callback: [if (!used && cleanup)]. *)
Definition idleCheck (s : State) : State :=
  match used s, cleanup s with
  | false, Some _ => unsubscribe s
  | _, _ => s
  end.

(** The oldest pending timer fires; nothing runs when none is pending. *)
Definition timeout (s : State) : State :=
  match timers s with
  | O => s
  | S n =>
      idleCheck
        {| sigState := sigState s;
           cleanup := cleanup s;
           used := used s;
           memo := memo s;
           timers := n;
           setupCalls := setupCalls s;
           teardownCalls := teardownCalls s |}
  end.

(** What can happen to an adapter, one turn at a time. *)
Inductive Event : Type :=
| Read
| Update (value : T)
| Timeout.

Definition step (s : State) (e : Event) : State :=
  match e with
  | Read => (read s).2
  | Update value => update value s
  | Timeout => timeout s
  end.

Definition run (events : list Event) (s : State) : State :=
  foldl step s events.

(** What holds of the memo in every state the adapter reaches: a memoized
    value is the value of the signal. *)
Definition consistent (s : State) : Prop :=
  match memo s with
  | Some value => value = sigState s
  | None => True
  end.

(** [n] reads in a row. *)
Definition reads (n : nat) (s : State) : State :=
  Nat.iter n (fun s => (read s).2) s.

(** The value pushed last in a list of events, if any. *)
Definition lastPushed (events : list Event) : option T :=
  foldl (fun pushed e =>
           match e with
           | Update value => Some value
           | _ => pushed
           end)
        None events.

(** Every [setup] call but the one that gave the [cleanup] at hand has been
    matched by a teardown call, and the [cleanup] at hand is the one of the
    latest [setup] call. *)
Definition subscriptionsBalanced (s : State) : Prop :=
  match cleanup s with
  | Some k => setupCalls s = S (teardownCalls s) /\ setupCalls s = S k
  | None => setupCalls s = teardownCalls s
  end.

(** No push among the events. *)
Definition noUpdate (events : list Event) : Prop :=
  Forall (fun e => match e with Update _ => False | _ => True end) events.

(** [n] timers fire in a row. *)
Definition timeouts (n : nat) (s : State) : State :=
  Nat.iter n timeout s.

(** Several pushes in a row, none of them read. *)
Definition updates (values : list T) (s : State) : State :=
  foldl (fun s value => update value s) s values.

End Adapter.

Arguments State T : clear implicits.
Arguments Event T : clear implicits.

End listeningSignal.

(** ** [asyncComputed]

    [counter] and the signal [sigState] of one adapter. A call of [compute]
    is started by [start], which hands out its [count]; its promise later
    settles by [resolve] or [reject], in any order across calls. *)

Module asyncComputed.
Section Adapter.
Context {T : Type}.

Record State : Type := {
  counter : nat;
  sigState : option (nat * T);
}.

Definition init : State := {| counter := 0; sigState := None |}.

(** The synchronous part of the async function: [const count = counter++]. *)
Definition start (s : State) : nat * State :=
  (counter s, {| counter := S (counter s); sigState := sigState s |}).

(** The continuation after [await compute(state)] fulfilled with [result]. *)
Definition resolve (count : nat) (result : T) (s : State) : State :=
  let current := sigState s in
  if match current with
     | None => true
     | Some current => (current.1 <? count)%nat
     end
  then {| counter := counter s; sigState := Some (count, result) |}
  else s.

(** The [catch] branch: the error is logged. *)
Definition reject (count : nat) (s : State) : State := s.

(** What the returned computed yields: [sigState.get()?.value]. *)
Definition output (s : State) : option T :=
  match sigState s with
  | Some current => Some current.2
  | None => None
  end.

(** What can happen to an adapter: a call starts, or a call that was
    started settles. A count that was never handed out settles nothing. *)
Inductive Event : Type :=
| Start
| Resolve (count : nat) (result : T)
| Reject (count : nat).

Definition step (s : State) (e : Event) : State :=
  match e with
  | Start => (start s).2
  | Resolve count result =>
      if (count <? counter s)%nat then resolve count result s else s
  | Reject count => reject count s
  end.

Definition run (events : list Event) (s : State) : State :=
  foldl step s events.

(** Calls settle with results, one after the other. *)
Definition resolveAll (settled : list (nat * T)) (s : State) : State :=
  foldl (fun s call => resolve call.1 call.2 s) s settled.

(** The count of the applied result, if any. *)
Definition appliedCount (s : State) : option nat :=
  match sigState s with
  | Some current => Some current.1
  | None => None
  end.

(** [count] is above the count of the applied result, if there is one:
    the test of [resolve]. *)
Definition newer (current : option (nat * T)) (count : nat) : Prop :=
  match current with
  | Some current => (current.1 < count)%nat
  | None => True
  end.

(** No applied result carries a count that has not been handed out. *)
Definition wellFormed (s : State) : Prop :=
  match sigState s with
  | Some current => (current.1 < counter s)%nat
  | None => True
  end.

End Adapter.

Arguments State T : clear implicits.
Arguments Event T : clear implicits.

End asyncComputed.

(** ** Radial display ([renderCompass], [renderLocationHistoryPath])

    [Math.log] is [ln]; the display only takes it of [distance + 1] with a
    distance that is not negative. *)

Definition HALF_EARTH_CIRCUMFERENCE : R := PI * EARTH_RADIUS.
Definition DISTANCE_LOG_FACTOR : R := 1 / ln (HALF_EARTH_CIRCUMFERENCE + 1).

(** [const svgSize = 100]. *)
Definition svgSize : R := 100.

Definition distanceToRadius (distance : R) : R :=
  ln (distance + 1) * DISTANCE_LOG_FACTOR * svgSize / 2.

Module PolarCoordinate.
Record t : Type := mk {
  radius : R;
  angle : R;
  x : R;
  y : R;
  hue : R;
}.
End PolarCoordinate.

(** The body of [points.map((point) => ...)] in [renderCompass]; [coord] is
    the parsed current location. *)
Definition polarCoordinate (coord : Coord) (point : LocationBookmark.t)
  : PolarCoordinate.t :=
  let dist := distance coord (LocationBookmark.coord point) in
  let bearing := calculateBearing coord (LocationBookmark.coord point) in
  let radius := distanceToRadius dist in
  {| PolarCoordinate.radius := radius;
     PolarCoordinate.angle := bearing;
     PolarCoordinate.x := cos (bearing - PI / 2) * radius + svgSize / 2;
     PolarCoordinate.y := sin (bearing - PI / 2) * radius + svgSize / 2;
     PolarCoordinate.hue := LocationBookmark.hue point |}.

(** [const points = this.bookmarks.get() ?? []] mapped to polar
    coordinates; [value] is the array that [get()] returned, or
    [undefined]. *)
Definition polarCoordinates (coord : Coord)
    (value : option (list LocationBookmark.t)) : list PolarCoordinate.t :=
  map (polarCoordinate coord) (default [] value).

(** The points of the history path, [{ cx, cy }] per entry, before they are
    joined into the path string; [None] is [nothing]. [history] is the array
    that [this.locationHistory.get()] returned, or [undefined]. *)
Definition renderLocationHistoryPath (coord : Coord)
    (history : option (list LocationHistoryEntry.t))
  : option (list (R * R)) :=
  match history with
  | None => None
  | Some [] => None
  | Some history =>
      Some (map (fun entry =>
                   let dist :=
                     distance coord (LocationHistoryEntry.coord entry) in
                   let bearing :=
                     calculateBearing coord
                       (LocationHistoryEntry.coord entry) in
                   let radius := distanceToRadius dist in
                   let cx := cos (bearing - PI / 2) * radius + svgSize / 2 in
                   let cy := sin (bearing - PI / 2) * radius + svgSize / 2 in
                   (cx, cy))
                history)
  end.

(** ** The add-bookmark button *)


(** Bookmarks added one after the other, each with its own [Math.random()]
    and [Date.now()], whether a call returned or threw. *)
Definition addBookmarks `{!JSON (list LocationBookmark.t)}
    (points : list (Coord * R * R)) (this : CompassRadar) : CompassRadar :=
  foldl (fun this '(point, random, now) =>
           (addBookmark point random now this).2)
        this points.

(** The page is loaded again: the closures are new, [localStorage] stays. *)
Definition reload (this : CompassRadar) : CompassRadar :=
  {| localStorage := localStorage this;
     bookmarks := None;
     locationHistory := None |}.

(** The history is sorted by timestamp, oldest first. *)
Definition timestampsAscend (history : list LocationHistoryEntry.t) : Prop :=
  forall (i j : nat) (a b : LocationHistoryEntry.t),
    (i <= j)%nat -> history !! i = Some a -> history !! j = Some b ->
    LocationHistoryEntry.timestamp a <= LocationHistoryEntry.timestamp b.

(** The positions arrive in the order of their timestamps, the first not
    before [start]. *)
Fixpoint arriveInOrder (start : R) (positions : list GeolocationPosition)
  : Prop :=
  match positions with
  | [] => True
  | position :: rest =>
      start <= timestamp position /\ arriveInOrder (timestamp position) rest
  end.

(** ** Orientation sources (location-signal.ts) *)

(** A [DeviceOrientationEvent]: [alpha] is a number or [null]. *)
Record DeviceOrientationEvent : Type := {
  alpha : option R;
  absolute : bool;
}.

(** The two orientation adapters. *)
Record OrientationSignals : Type := {
  absoluteDeviceOrientation : listeningSignal.State DeviceOrientationEvent;
  deviceOrientation : listeningSignal.State DeviceOrientationEvent;
}.

(** The callback of [deviceOrientationAbsoluteWhenAvailable]: the relative
    adapter is read only when the absolute one has no heading. *)
Definition deviceOrientationAbsoluteWhenAvailable (signals : OrientationSignals)
  : option DeviceOrientationEvent * OrientationSignals :=
  let '(absoluteOrientation, absoluteAdapter) :=
    listeningSignal.read (absoluteDeviceOrientation signals) in
  if match absoluteOrientation with
     | Some event => bool_decide (is_Some (alpha event))
     | None => false
     end
  then (absoluteOrientation,
        {| absoluteDeviceOrientation := absoluteAdapter;
           deviceOrientation := deviceOrientation signals |})
  else
    let '(orientation, adapter) :=
      listeningSignal.read (deviceOrientation signals) in
    (orientation,
     {| absoluteDeviceOrientation := absoluteAdapter;
        deviceOrientation := adapter |}).

(** The callback of [compassHeading]: [orientation?.alpha]. *)
Definition compassHeading (signals : OrientationSignals)
  : option R * OrientationSignals :=
  let '(orientation, signals) :=
    deviceOrientationAbsoluteWhenAvailable signals in
  (match orientation with
   | Some event => alpha event
   | None => None
   end,
   signals).

(** ** Event listeners and geolocation watches

    A registered listener is a type, a callback (named by a number: two
    closures are two callbacks) and its capture flag. [addEventListener]
    ignores a listener that is already registered; [removeEventListener]
    removes the listener with the same type, callback and capture flag. *)

Record EventListener : Type := {
  listenerType : string;
  listenerCallback : nat;
  listenerCapture : bool;
}.

#[global] Instance EventListener_eq_dec : EqDecision EventListener.
Proof. solve_decision. Defined.

Definition addEventListener (type : string) (callback : nat) (capture : bool)
    (listeners : list EventListener) : list EventListener :=
  let listener :=
    {| listenerType := type; listenerCallback := callback;
       listenerCapture := capture |} in
  if bool_decide (listener ∈ listeners) then listeners
  else listeners ++ [listener].

Definition removeEventListener (type : string) (callback : nat)
    (capture : bool) (listeners : list EventListener) : list EventListener :=
  let listener :=
    {| listenerType := type; listenerCallback := callback;
       listenerCapture := capture |} in
  filter (fun registered => registered <> listener) listeners.

(** The [setup] of [deviceOrientation]: the window's listeners after
    [addEventListener("deviceorientation", callback, true)], and the
    teardown it returns, [removeEventListener("deviceorientation",
    callback)], whose capture flag is the default, [false]. *)
Definition deviceOrientationSetup (callback : nat)
    (listeners : list EventListener)
  : list EventListener * (list EventListener -> list EventListener) :=
  (addEventListener "deviceorientation" callback true listeners,
   removeEventListener "deviceorientation" callback false).

(** The [setup] of [absoluteDeviceOrientation]. *)
Definition absoluteDeviceOrientationSetup (callback : nat)
    (listeners : list EventListener)
  : list EventListener * (list EventListener -> list EventListener) :=
  (addEventListener "deviceorientationabsolute" callback true listeners,
   removeEventListener "deviceorientationabsolute" callback false).

(** [navigator.geolocation]: the running watches and the next id that
    [watchPosition] hands out. *)
Record Geolocation : Type := {
  watches : list nat;
  nextWatchId : nat;
}.

Definition watchPosition (geolocation : Geolocation) : nat * Geolocation :=
  (nextWatchId geolocation,
   {| watches := watches geolocation ++ [nextWatchId geolocation];
      nextWatchId := S (nextWatchId geolocation) |}).

Definition clearWatch (id : nat) (geolocation : Geolocation) : Geolocation :=
  {| watches := filter (fun watch => watch <> id) (watches geolocation);
     nextWatchId := nextWatchId geolocation |}.

(** The [setup] of [geolocation]: the watch is started, and the teardown
    clears the id it got. *)
Definition geolocationSetup (geolocation : Geolocation)
  : Geolocation * (Geolocation -> Geolocation) :=
  let '(id, geolocation) := watchPosition geolocation in
  (geolocation, clearWatch id).

(** Every running watch has an id that was handed out. *)
Definition watchesIssued (geolocation : Geolocation) : Prop :=
  Forall (fun watch => (watch < nextWatchId geolocation)%nat)
         (watches geolocation).

(** The bookmark [addBookmark] builds from a point, [Math.random()] and
    [Date.now()]. *)
Definition newBookmark (added : Coord * R * R) : LocationBookmark.t :=
  {| LocationBookmark.coord := added.1.1;
     LocationBookmark.hue := added.1.2 * 360;
     LocationBookmark.label := None;
     LocationBookmark.createdAt := Some added.2 |}.


(** ** The component before [localStorageValue]

    An earlier revision of the component keeps the bookmarks in a field
    [points], filled by the constructor, and writes [localStorage] itself;
    its bookmarks have no [createdAt]. *)

Module LegacyCompassRadar.

Record t : Type := {
  points : option (Stored (list LocationBookmark.t));
  localStorage : gmap string string;
}.

Definition localStorageKey : string := "location-bookmarks".

(** The constructor, in a browser with the given [localStorage]; it throws
    where [JSON.parse] does, and [points] is whatever [JSON.parse]
    returns. *)
Definition constructor `{!JSON (list LocationBookmark.t)}
    (storage : gmap string string) : Result t :=
  match storage !! localStorageKey with
  | Some savedPointsJSON =>
      if String.eqb savedPointsJSON ""
      then Return {| points := Some (OfType []); localStorage := storage |}
      else match JSON_parse savedPointsJSON with
           | Some parsed =>
               Return {| points := Some parsed; localStorage := storage |}
           | None => Throw ThrownSyntaxError
           end
  | None => Return {| points := Some (OfType []); localStorage := storage |}
  end.

(** [addBookmark(point)]: [this.points?.push(...)], then the write under
    [if (this.points)]. On [undefined] and [null] the call of [push] is
    skipped and nothing is written; a value that is neither these nor an
    array has no [push], and calling it throws a [TypeError]. *)
Definition addBookmark `{!JSON (list LocationBookmark.t)}
    (point : Coord) (random : R) (this : t) : Result unit * t :=
  let hue := random * 360 in
  match points this with
  | Some (OfType existing) =>
      let pushed :=
        existing ++ [ {| LocationBookmark.coord := point;
                         LocationBookmark.hue := hue;
                         LocationBookmark.label := None;
                         LocationBookmark.createdAt := None |} ] in
      (Return tt,
       {| points := Some (OfType pushed);
          localStorage :=
            <[localStorageKey := JSON_stringify pushed]>
              (localStorage this) |})
  | Some (NotOfType (ForeignOther _)) => (Throw ThrownTypeError, this)
  | Some (NotOfType ForeignNull) => (Return tt, this)
  | None => (Return tt, this)
  end.

Definition clearBookmarks (this : t) : t :=
  {| points := Some (OfType []);
     localStorage := delete localStorageKey (localStorage this) |}.

End LegacyCompassRadar.

(** What the user does to the bookmarks: add one (with the values of
    [Math.random()] and [Date.now()]) or clear them all. *)
Inductive BookmarkAction : Type :=
| AddBookmark (point : Coord) (random now : R)
| ClearBookmarks.

Definition legacyAct `{!JSON (list LocationBookmark.t)}
    (this : LegacyCompassRadar.t) (action : BookmarkAction)
  : LegacyCompassRadar.t :=
  match action with
  | AddBookmark point random _ =>
      (LegacyCompassRadar.addBookmark point random this).2
  | ClearBookmarks => LegacyCompassRadar.clearBookmarks this
  end.

Definition act `{!JSON (list LocationBookmark.t)}
    (this : CompassRadar) (action : BookmarkAction) : CompassRadar :=
  match action with
  | AddBookmark point random now => (addBookmark point random now this).2
  | ClearBookmarks => clearBookmarks this
  end.

(** What is drawn of a list of bookmarks: where, and in which hue. *)
Definition drawn (points : list LocationBookmark.t) : list (Coord * R) :=
  map (fun point => (LocationBookmark.coord point, LocationBookmark.hue point))
      points.

(** The bookmarks of the two revisions are drawn alike: the earlier one
    has an array, and [bookmarks.get()] of the later one returns, without
    throwing, [undefined] or an array, and [value ?? []] is drawn the
    same. *)
Definition alike `{!JSON (list LocationBookmark.t)}
    (legacy : LegacyCompassRadar.t) (this : CompassRadar) : Prop :=
  exists (points : list LocationBookmark.t)
         (value : option (Stored (list LocationBookmark.t))),
    LegacyCompassRadar.points legacy = Some (OfType points)
    /\ localStorageValue.get bookmarksKey None
         (localStorage this) (bookmarks this) = Return value
    /\ (value = None \/ exists array, value = Some (OfType array))
    /\ drawn (arrayOf value) = drawn points.

(** * Part II: properties *)

(** ** Number operations *)

Lemma lt_true (x y : R) : JS.lt x y = true <-> x < y.
Proof. unfold JS.lt. destruct (Rlt_dec x y); split; intros; try done. Qed.

Lemma lt_false (x y : R) : JS.lt x y = false <-> y <= x.
Proof.
  unfold JS.lt. destruct (Rlt_dec x y); split; intros; try done; lra.
Qed.

Lemma lt_irrefl (x : R) : JS.lt x x = false.
Proof. apply lt_false. lra. Qed.

(** The truncated quotient is within one of the exact one, on the side of
    zero. *)
Lemma trunc_nonneg (r : R) :
  0 <= r -> IZR (JS.trunc r) <= r < IZR (JS.trunc r) + 1.
Proof.
  intros Hr. unfold JS.trunc. destruct (Rle_dec 0 r) as [_|]; [|lra].
  destruct (base_Int_part r). lra.
Qed.

Lemma trunc_neg (r : R) :
  r < 0 -> r <= IZR (JS.trunc r) < r + 1.
Proof.
  intros Hr. unfold JS.trunc. destruct (Rle_dec 0 r); [lra|].
  rewrite opp_IZR. destruct (base_Int_part (- r)). lra.
Qed.

Lemma trunc_unique (r : R) (k : Z) :
  0 <= r -> IZR k <= r < IZR k + 1 -> JS.trunc r = k.
Proof.
  intros Hr Hk. unfold JS.trunc. destruct (Rle_dec 0 r); [|lra].
  symmetry. apply Int_part_spec. lra.
Qed.

Lemma trunc_small_neg (r : R) : -1 < r < 0 -> JS.trunc r = 0%Z.
Proof.
  intros Hr. unfold JS.trunc. destruct (Rle_dec 0 r); [lra|].
  rewrite <- (Int_part_spec (- r) 0); [done|]. simpl. lra.
Qed.

Lemma div_pos_bounds (x m : R) : 0 <= x < m -> 0 <= x / m < 1.
Proof.
  intros [Hx Hm]. split.
  - apply Rmult_le_pos; [done|]. left. apply Rinv_0_lt_compat. lra.
  - apply (Rmult_lt_reg_r m); [lra|]. unfold Rdiv.
    rewrite Rmult_assoc, Rinv_l by lra. lra.
Qed.

Lemma rem_quotient (x m : R) :
  m <> 0 -> JS.rem x m = m * (x / m - IZR (JS.trunc (x / m))).
Proof. intros Hm. unfold JS.rem. field. done. Qed.

Lemma rem_of_nonneg (x m : R) :
  0 < m -> 0 <= x -> 0 <= JS.rem x m < m.
Proof.
  intros Hm Hx. rewrite rem_quotient by lra.
  assert (0 <= x / m) as Hq.
  { apply Rmult_le_pos; [done|]. left. by apply Rinv_0_lt_compat. }
  pose proof (trunc_nonneg _ Hq). nra.
Qed.

Lemma rem_of_neg (x m : R) :
  0 < m -> x < 0 -> - m < JS.rem x m <= 0.
Proof.
  intros Hm Hx. rewrite rem_quotient by lra.
  assert (x / m < 0) as Hq.
  { unfold Rdiv. pose proof (Rinv_0_lt_compat m Hm). nra. }
  pose proof (trunc_neg _ Hq). nra.
Qed.

Lemma rem_bounds (x m : R) : 0 < m -> - m < JS.rem x m < m.
Proof.
  intros Hm. destruct (Rle_lt_dec 0 x) as [Hx|Hx].
  - pose proof (rem_of_nonneg x m Hm Hx). lra.
  - pose proof (rem_of_neg x m Hm Hx). lra.
Qed.

(** The normalisation [((a % m) + m) % m] lands in [[0, m)]. *)
Lemma rem_shift_rem (a m : R) :
  0 < m -> 0 <= JS.rem (JS.rem a m + m) m < m.
Proof.
  intros Hm. apply rem_of_nonneg; [done|].
  pose proof (rem_bounds a m Hm). lra.
Qed.

Lemma rem_small (x m : R) : 0 <= x < m -> JS.rem x m = x.
Proof.
  intros Hx. unfold JS.rem. pose proof (div_pos_bounds x m Hx) as Hq.
  rewrite (trunc_unique (x / m) 0); [lra|lra|simpl; lra].
Qed.

Lemma rem_small_neg (x m : R) : - m < x < 0 -> JS.rem x m = x.
Proof.
  intros Hx. unfold JS.rem.
  assert (0 < - x / m < 1) as Hq.
  { split.
    - apply Rmult_lt_0_compat; [lra|]. apply Rinv_0_lt_compat. lra.
    - apply (div_pos_bounds (- x) m). lra. }
  rewrite trunc_small_neg; [lra|].
  replace (x / m) with (- (- x / m)) by (field; lra). lra.
Qed.

Lemma rem_one_turn (x m : R) : 0 <= x < m -> JS.rem (x + m) m = x.
Proof.
  intros Hx. unfold JS.rem. pose proof (div_pos_bounds x m Hx) as Hq.
  assert ((x + m) / m = x / m + 1) as -> by (field; lra).
  rewrite (trunc_unique (x / m + 1) 1); [lra|lra|simpl; lra].
Qed.

(** The normalisation keeps an angle of the first turn and adds a turn to a
    negative one. *)
Lemma normalise_nonneg (a m : R) :
  0 <= a < m -> JS.rem (JS.rem a m + m) m = a.
Proof. intros Ha. rewrite (rem_small a m Ha). by apply rem_one_turn. Qed.

Lemma normalise_neg (a m : R) :
  - m < a < 0 -> JS.rem (JS.rem a m + m) m = a + m.
Proof. intros Ha. rewrite (rem_small_neg a m Ha). apply rem_small. lra. Qed.

Lemma two_PI_pos : 0 < 2 * PI.
Proof. pose proof PI_RGT_0. lra. Qed.

Lemma atan2_bounds (y x : R) : - PI < JS.Math_atan2 y x <= PI.
Proof.
  pose proof PI_RGT_0 as HPI. unfold JS.Math_atan2.
  pose proof (atan_bound (y / x)) as Hb.
  destruct (Rlt_dec 0 x) as [Hx|Hx]; [lra|].
  destruct (Rlt_dec x 0) as [Hx'|Hx'].
  - destruct (Rle_dec 0 y) as [Hy|Hy].
    + assert (y / x <= 0) as Hq.
      { unfold Rdiv. pose proof (Rinv_lt_0_compat x Hx'). nra. }
      assert (atan (y / x) <= 0).
      { destruct Hq as [Hq|Hq].
        - left. rewrite <- atan_0. by apply atan_increasing.
        - rewrite Hq, atan_0. lra. }
      lra.
    + assert (0 < y / x) as Hq.
      { unfold Rdiv. pose proof (Rinv_lt_0_compat x Hx'). nra. }
      assert (0 < atan (y / x)).
      { rewrite <- atan_0. by apply atan_increasing. }
      lra.
  - destruct (Rlt_dec 0 y); [lra|]. destruct (Rlt_dec y 0); lra.
Qed.

Lemma atan2_nonneg (y x : R) : 0 <= y -> 0 <= x -> 0 <= JS.Math_atan2 y x.
Proof.
  intros Hy Hx. pose proof PI_RGT_0 as HPI. unfold JS.Math_atan2.
  destruct (Rlt_dec 0 x) as [Hx'|Hx'].
  - assert (0 <= y / x) as [Hq|Hq].
    { apply Rmult_le_pos; [done|]. left. by apply Rinv_0_lt_compat. }
    + left. rewrite <- atan_0. by apply atan_increasing.
    + rewrite <- Hq, atan_0. lra.
  - destruct (Rlt_dec x 0); [lra|].
    destruct (Rlt_dec 0 y); [lra|]. destruct (Rlt_dec y 0); lra.
Qed.

(** [Math.atan2(y, x)] is the angle of the point [(x, y)]: with [r] the
    distance of the point from the origin, [y = r sin] and [x = r cos] of
    it. *)
Lemma atan_polar (q : R) :
  0 < sqrt (1 + q²)
  /\ sin (atan q) = q / sqrt (1 + q²)
  /\ cos (atan q) = 1 / sqrt (1 + q²).
Proof.
  split; [|split; [apply sin_atan | apply cos_atan]].
  apply sqrt_lt_R0. pose proof (Rle_0_sqr q). lra.
Qed.

Lemma sqrt_scaled (y x : R) :
  x <> 0 -> sqrt (y ^ 2 + x ^ 2) = Rabs x * sqrt (1 + (y / x)²).
Proof.
  intros Hx. apply sqrt_lem_1.
  - nra.
  - apply Rmult_le_pos; [apply Rabs_pos | apply sqrt_pos].
  - assert (0 <= 1 + (y / x)²) as Hpos
      by (pose proof (Rle_0_sqr (y / x)); lra).
    pose proof (sqrt_sqrt _ Hpos) as Hs.
    replace (Rabs x * sqrt (1 + (y / x)²) * (Rabs x * sqrt (1 + (y / x)²)))
      with (Rabs x * Rabs x * (sqrt (1 + (y / x)²) * sqrt (1 + (y / x)²)))
      by ring.
    rewrite Hs. replace (Rabs x * Rabs x) with (x * x).
    + unfold Rsqr. field. done.
    + unfold Rabs. destruct (Rcase_abs x); ring.
Qed.

Lemma sin_minus_PI (a : R) : sin (a - PI) = - sin a.
Proof. rewrite sin_minus, cos_PI, sin_PI. ring. Qed.

Lemma cos_minus_PI (a : R) : cos (a - PI) = - cos a.
Proof. rewrite cos_minus, cos_PI, sin_PI. ring. Qed.

Lemma atan2_polar (y x : R) :
  let r := sqrt (y ^ 2 + x ^ 2) in
  y = r * sin (JS.Math_atan2 y x) /\ x = r * cos (JS.Math_atan2 y x).
Proof.
  cbv zeta. unfold JS.Math_atan2.
  destruct (atan_polar (y / x)) as (Hs & Hsin & Hcos).
  destruct (Rlt_dec 0 x) as [Hx|Hx].
  - rewrite sqrt_scaled, Hsin, Hcos, Rabs_pos_eq by lra.
    split; field; lra.
  - destruct (Rlt_dec x 0) as [Hx'|Hx'].
    + rewrite sqrt_scaled, Rabs_left by lra.
      destruct (Rle_dec 0 y).
      * rewrite neg_sin, neg_cos, Hsin, Hcos. split; field; lra.
      * rewrite sin_minus_PI, cos_minus_PI, Hsin, Hcos. split; field; lra.
    + assert (x = 0) as -> by lra.
      replace (y ^ 2 + 0 ^ 2) with (y²) by (unfold Rsqr; ring).
      rewrite sqrt_Rsqr_abs.
      destruct (Rlt_dec 0 y) as [Hy|Hy].
      * rewrite sin_PI2, cos_PI2, Rabs_pos_eq by lra. lra.
      * destruct (Rlt_dec y 0) as [Hy'|Hy'].
        -- rewrite sin_neg, cos_neg, sin_PI2, cos_PI2, Rabs_left by lra. lra.
        -- assert (y = 0) as -> by lra. rewrite Rabs_R0. lra.
Qed.

(** ** Geodesic math *)

(** The two numbers [x] and [y] that [calculateBearing] hands to
    [Math.atan2] are the east and north parts of the heading. *)
Lemma heading_parts (origin other : Coord) :
  let dlon := other.2 - origin.2 in
  headingEast origin other = sin dlon * cos other.1
  /\ headingNorth origin other
     = cos origin.1 * sin other.1 - sin origin.1 * cos other.1 * cos dlon.
Proof.
  cbv zeta. unfold headingEast, headingNorth, dot, onSphere, eastAt, northAt.
  cbn [fst snd]. rewrite sin_minus, cos_minus. split; ring.
Qed.

(** The bearing is the angle of [Math.atan2], moved into the first turn. *)
Lemma calculateBearing_atan2 (origin other : Coord) :
  let dlon := other.2 - origin.2 in
  let x := sin dlon * cos other.1 in
  let y := cos origin.1 * sin other.1
           - sin origin.1 * cos other.1 * cos dlon in
  calculateBearing origin other =
    if Rle_dec 0 (JS.Math_atan2 x y) then JS.Math_atan2 x y
    else JS.Math_atan2 x y + 2 * PI.
Proof.
  intros dlon x y. unfold calculateBearing. fold dlon. fold x. fold y.
  cbv zeta. pose proof (atan2_bounds x y) as Hb. pose proof PI_RGT_0.
  destruct (Rle_dec 0 (JS.Math_atan2 x y)).
  - apply normalise_nonneg. lra.
  - apply normalise_neg. lra.
Qed.

(** [Math.atan2] on the four half-axes. *)
Lemma atan2_axes (r : R) :
  0 < r ->
  JS.Math_atan2 0 r = 0 /\ JS.Math_atan2 r 0 = PI / 2
  /\ JS.Math_atan2 0 (- r) = PI /\ JS.Math_atan2 (- r) 0 = - (PI / 2).
Proof.
  intros Hr. unfold JS.Math_atan2. repeat split.
  - destruct (Rlt_dec 0 r); [|lra].
    replace (0 / r) with 0 by (field; lra). apply atan_0.
  - destruct (Rlt_dec 0 0); [lra|]. destruct (Rlt_dec 0 r); [done|lra].
  - destruct (Rlt_dec 0 (- r)); [lra|]. destruct (Rlt_dec (- r) 0); [|lra].
    destruct (Rle_dec 0 0); [|lra].
    replace (0 / - r) with 0 by (field; lra). rewrite atan_0. lra.
  - destruct (Rlt_dec 0 0); [lra|]. destruct (Rlt_dec 0 (- r)); [lra|].
    destruct (Rlt_dec (- r) 0); [done|lra].
Qed.

(** Clockwise from north: a point due north of the origin on the equator
    bears [0], one due east [PI / 2], one due south [PI], one due west
    [3 * PI / 2]. *)
Lemma calculateBearing_compass_points (d : R) :
  0 < d < PI ->
  calculateBearing (0, 0) (d, 0) = 0
  /\ calculateBearing (0, 0) (0, d) = PI / 2
  /\ calculateBearing (0, 0) (- d, 0) = PI
  /\ calculateBearing (0, 0) (0, - d) = 3 * PI / 2.
Proof.
  intros Hd. pose proof PI_RGT_0 as HPI.
  assert (0 < sin d) as Hs by (apply sin_gt_0; lra).
  destruct (atan2_axes (sin d) Hs) as (Hn & He & Hso & Hw).
  rewrite !calculateBearing_atan2. cbn [fst snd].
  rewrite !Rminus_0_r, ?sin_0, ?cos_0, ?sin_neg, ?cos_neg.
  repeat split.
  - replace (1 * sin d - 0 * cos d * 1) with (sin d) by ring.
    replace (0 * cos d) with 0 by ring.
    rewrite Hn. destruct (Rle_dec 0 0); lra.
  - replace (sin d * 1) with (sin d) by ring.
    replace (1 * 0 - 0 * 1 * cos d) with 0 by ring.
    rewrite He. destruct (Rle_dec 0 (PI / 2)); lra.
  - replace (1 * - sin d - 0 * cos d * 1) with (- sin d) by ring.
    replace (0 * cos d) with 0 by ring.
    rewrite Hso. destruct (Rle_dec 0 PI); lra.
  - replace (- sin d * 1) with (- sin d) by ring.
    replace (1 * 0 - 0 * 1 * cos d) with 0 by ring.
    rewrite Hw. destruct (Rle_dec 0 (- (PI / 2))); lra.
Qed.

(** C9: for all coordinate pairs [a <> b], [calculateBearing a b] lies in
    the half-open interval from [0] (included) to [2 * PI] (excluded), and
    it is the initial bearing measured clockwise from true north: the
    heading from [a] towards [b], of length [r] in the plane tangent to the
    sphere at [a], points east by [r * sin bearing] and north by
    [r * cos bearing]. *)
Theorem calculateBearing_is_the_initial_bearing (a b : Coord) :
  a <> b ->
  let bearing := calculateBearing a b in
  let east := headingEast a b in
  let north := headingNorth a b in
  let r := sqrt (east ^ 2 + north ^ 2) in
  0 <= bearing < 2 * PI
  /\ east = r * sin bearing
  /\ north = r * cos bearing.
Proof.
  intros _. cbv zeta. split.
  - unfold calculateBearing. cbv zeta. apply rem_shift_rem, two_PI_pos.
  - destruct (heading_parts a b) as [-> ->].
    rewrite calculateBearing_atan2. cbv zeta.
    match goal with |- context [JS.Math_atan2 ?x ?y] =>
      destruct (atan2_polar x y) as [Heast Hnorth];
      destruct (Rle_dec 0 (JS.Math_atan2 x y)) end.
    + done.
    + rewrite sin_plus, cos_plus, sin_2PI, cos_2PI, !Rmult_0_r, !Rmult_1_r,
        Rplus_0_r, Rminus_0_r.
      done.
Qed.

(** From latitude 0, longitude 0 to the point one radian further east on
    the equator: the bearing is a quarter turn, due east. *)
Lemma calculateBearing_is_the_initial_bearing_witness :
  ((0, 0) : Coord) <> (0, 1)
  /\ calculateBearing (0, 0) (0, 1) = PI / 2
  /\ headingEast (0, 0) (0, 1)
     = sqrt (headingEast (0, 0) (0, 1) ^ 2 + headingNorth (0, 0) (0, 1) ^ 2)
       * sin (calculateBearing (0, 0) (0, 1)).
Proof.
  assert (((0, 0) : Coord) <> (0, 1)) as Hne by (intros [=]; lra).
  split; [exact Hne|]. split.
  - assert (0 < 1 < PI) as Hd by (pose proof PI_RGT_0; pose proof PI2_1; lra).
    exact (proj1 (proj2 (calculateBearing_compass_points 1 Hd))).
  - exact (proj1 (proj2 (calculateBearing_is_the_initial_bearing _ _ Hne))).
Defined.

(** The great-circle distance is never negative. *)
Lemma distance_nonneg (first second : Coord) : 0 <= distance first second.
Proof.
  unfold distance, EARTH_RADIUS. cbv zeta.
  match goal with |- 0 <= _ * (2 * JS.Math_atan2 ?y ?x) =>
    pose proof (atan2_nonneg y x (sqrt_pos _) (sqrt_pos _)) end.
  nra.
Qed.

(** Two fixes at the same place are at distance zero. *)
Lemma distance_same (c : Coord) : distance c c = 0.
Proof.
  unfold distance. cbv zeta. rewrite !Rminus_diag.
  replace (0 / 2) with 0 by lra. rewrite sin_0.
  replace (0 ^ 2 + cos c.1 * cos c.1 * 0 ^ 2) with 0 by ring.
  rewrite sqrt_0, Rminus_0_r, sqrt_1.
  destruct (atan2_axes 1 Rlt_0_1) as (-> & _). lra.
Qed.

Lemma distance_sym (first second : Coord) :
  distance first second = distance second first.
Proof.
  unfold distance. cbv zeta.
  replace ((first.1 - second.1) / 2) with (- ((second.1 - first.1) / 2))
    by lra.
  replace ((first.2 - second.2) / 2) with (- ((second.2 - first.2) / 2))
    by lra.
  rewrite !sin_neg.
  replace ((- sin ((second.1 - first.1) / 2)) ^ 2
           + cos second.1 * cos first.1
             * (- sin ((second.2 - first.2) / 2)) ^ 2)
    with (sin ((second.1 - first.1) / 2) ^ 2
          + cos first.1 * cos second.1
            * sin ((second.2 - first.2) / 2) ^ 2) by ring.
  done.
Qed.

(** ** The history compactor *)

Lemma parseLocationEvent_position (position : GeolocationPosition) :
  parseLocationEvent (Some (Position position))
  = Return (positionCoord position).
Proof. reflexivity. Qed.

Lemma spliceHistory_drop (history : list LocationHistoryEntry.t) :
  spliceHistory history
  = drop (length history - MAX_HISTORY_LENGTH) history.
Proof.
  unfold spliceHistory.
  destruct (Nat.ltb_spec MAX_HISTORY_LENGTH (length history)) as [H|H]; [done|].
  replace (length history - MAX_HISTORY_LENGTH)%nat with 0%nat by lia. done.
Qed.

Lemma spliceHistory_length (history : list LocationHistoryEntry.t) :
  length (spliceHistory history)
  = Nat.min (length history) MAX_HISTORY_LENGTH.
Proof. rewrite spliceHistory_drop, length_drop. lia. Qed.

(** Dropping from the front keeps the last entry. *)
Lemma spliceHistory_last (history : list LocationHistoryEntry.t) :
  last (spliceHistory history) = last history.
Proof.
  rewrite spliceHistory_drop. unfold MAX_HISTORY_LENGTH.
  destruct (last history) as [e|] eqn:He.
  - apply last_Some in He as [l' ->]. rewrite length_app. cbn [length].
    rewrite drop_app_le by lia. apply last_snoc.
  - apply last_None in He as ->. done.
Qed.

Lemma mergeCondition_true (lastEntry : LocationHistoryEntry.t)
    (coord : Coord) (location : GeolocationPosition) :
  mergeCondition lastEntry coord location = true
  <-> distance coord (LocationHistoryEntry.coord lastEntry)
        < Rmax (LocationHistoryEntry.accuracy lastEntry)
               (accuracy (coords location))
      /\ timestamp location - LocationHistoryEntry.timestamp lastEntry
         < 30000.
Proof.
  unfold mergeCondition, JS.Math_max.
  rewrite andb_true_iff, !lt_true. done.
Qed.


Lemma nextHistory_append (history : list LocationHistoryEntry.t)
    (lastEntry : LocationHistoryEntry.t)
    (coord : Coord) (location : GeolocationPosition) :
  last history = Some lastEntry ->
  mergeCondition lastEntry coord location = false ->
  nextHistory history coord location
  = spliceHistory history ++ [sampleEntry coord location].
Proof.
  intros Hl Hm. unfold nextHistory. cbv zeta.
  rewrite spliceHistory_last, Hl, Hm. done.
Qed.

Lemma nextHistory_first (coord : Coord) (location : GeolocationPosition) :
  nextHistory [] coord location = [sampleEntry coord location].
Proof. reflexivity. Qed.

(** A merge keeps the length of the (spliced) history, an append adds one. *)
Lemma removelast_snoc_length {A : Type} (l : list A) (x y : A) :
  last l = Some x -> length (removelast l ++ [y]) = length l.
Proof.
  intros [l' ->]%last_Some. rewrite removelast_last, !length_app. done.
Qed.

(** What [$recordHistory] does with a position once the history is at hand:
    it returns the position and stores [nextHistory]. *)
Lemma recordHistory_position `{!JSON (list LocationHistoryEntry.t)}
    (position : GeolocationPosition) (this : CompassRadar)
    (history : list LocationHistoryEntry.t) :
  locationHistory this = Some (OfType history)
  \/ (locationHistory this = None
      /\ localStorage this !! locationHistoryKey = None /\ history = []) ->
  let stored := nextHistory history (positionCoord position) position in
  recordHistory (Some (Position position)) this
  = (Return (Some (Position position)),
     {| localStorage :=
          <[locationHistoryKey := JSON_stringify stored]> (localStorage this);
        bookmarks := bookmarks this;
        locationHistory := Some (OfType stored) |}).
Proof.
  intros [Hc|(Hc & Hls & ->)]; unfold recordHistory; cbn [parseLocationEvent];
    unfold localStorageValue.get, localStorageValue.set; rewrite Hc.
  - done.
  - rewrite Hls. done.
Qed.





(** The blend weight lies between 0 and 0.5 for accuracies that are not
    negative. *)
Lemma coordMergeT_range (sampleAcc lastAcc : R) :
  0 <= sampleAcc -> 0 <= lastAcc -> 0 < Rmax sampleAcc lastAcc ->
  0 <= Rmin sampleAcc lastAcc / Rmax sampleAcc lastAcc * 0.5 <= 0.5.
Proof.
  intros Hs Hl Hmax.
  pose proof (Rminmax sampleAcc lastAcc) as Hmm.
  assert (0 <= Rmin sampleAcc lastAcc) as Hmin by (by apply Rmin_glb).
  pose proof (Rinv_0_lt_compat _ Hmax) as Hinv.
  pose proof (Rinv_r (Rmax sampleAcc lastAcc)) as Hone.
  unfold Rdiv. nra.
Qed.

(** ** The bound on the history *)

(** Whatever the history was, the array handed to [set] has at most
    [MAX_HISTORY_LENGTH + 1] entries: the splice runs before the new entry
    is added. *)
Lemma nextHistory_length_bound (history : list LocationHistoryEntry.t)
    (coord : Coord) (location : GeolocationPosition) :
  (length (nextHistory history coord location) <= S MAX_HISTORY_LENGTH)%nat.
Proof.
  unfold nextHistory. cbv zeta.
  pose proof (spliceHistory_length history) as Hlen.
  destruct (last (spliceHistory history)) as [lastEntry|] eqn:Hlast.
  - destruct (mergeCondition lastEntry coord location).
    + rewrite (removelast_snoc_length _ lastEntry) by done. lia.
    + rewrite length_app. cbn [length]. lia.
  - rewrite length_app. cbn [length]. lia.
Qed.

(** With [MAX_HISTORY_LENGTH] entries at hand nothing is spliced, and a
    sample that does not merge makes one entry more. *)
Lemma nextHistory_full_history (history : list LocationHistoryEntry.t)
    (lastEntry : LocationHistoryEntry.t)
    (coord : Coord) (location : GeolocationPosition) :
  length history = MAX_HISTORY_LENGTH ->
  last history = Some lastEntry ->
  mergeCondition lastEntry coord location = false ->
  nextHistory history coord location
  = history ++ [sampleEntry coord location]
  /\ length (nextHistory history coord location) = S MAX_HISTORY_LENGTH.
Proof.
  intros Hlen Hlast Hm.
  rewrite (nextHistory_append _ lastEntry) by done.
  rewrite spliceHistory_drop, Hlen, Nat.sub_diag, drop_0.
  split; [done|]. rewrite length_app, Hlen. cbn [length]. lia.
Qed.

(** A sample that does not merge is appended to the spliced history. *)
Lemma nextHistory_nonMergeable (history : list LocationHistoryEntry.t)
    (position : GeolocationPosition) (rest : list GeolocationPosition) :
  nonMergeable (last history) (position :: rest) ->
  nextHistory history (positionCoord position) position
  = spliceHistory history
    ++ [sampleEntry (positionCoord position) position].
Proof.
  intros [Hm _]. destruct (last history) as [lastEntry|] eqn:Hlast.
  - by apply (nextHistory_append _ lastEntry).
  - apply last_None in Hlast as ->. done.
Qed.

(** A run of non-mergeable samples keeps the most recent
    [MAX_HISTORY_LENGTH + 1] entries, in insertion order. *)
Lemma compactAll_nonMergeable (positions : list GeolocationPosition) :
  forall history : list LocationHistoryEntry.t,
  (length history <= S MAX_HISTORY_LENGTH)%nat ->
  nonMergeable (last history) positions ->
  compactAll history positions
  = drop (length history + length positions - S MAX_HISTORY_LENGTH)
      (history
       ++ map (fun position => sampleEntry (positionCoord position) position)
            positions).
Proof.
  unfold MAX_HISTORY_LENGTH.
  induction positions as [|position rest IH]; intros history Hlen Hnm.
  - cbn. rewrite app_nil_r.
    replace (length history + 0 - 101)%nat with 0%nat by lia. done.
  - cbn [compactAll foldl]. fold (compactAll
      (nextHistory history (positionCoord position) position) rest).
    pose proof (nextHistory_length_bound history
                  (positionCoord position) position) as Hbound.
    rewrite (nextHistory_nonMergeable _ _ _ Hnm) in *.
    rewrite IH; [|done|rewrite last_snoc; apply Hnm].
    rewrite length_app, spliceHistory_length. unfold MAX_HISTORY_LENGTH.
    rewrite spliceHistory_drop. unfold MAX_HISTORY_LENGTH.
    rewrite <- app_assoc. cbn [app map length].
    rewrite <- (drop_app_le history) by lia.
    rewrite drop_drop. f_equal. lia.
Qed.

(** The raw samples are 30000 ms apart, so none merges into the one before
    it. *)
Lemma rawSample_mergeCondition (i : nat) :
  mergeCondition
    (sampleEntry (positionCoord (rawSample i)) (rawSample i))
    (positionCoord (rawSample (S i))) (rawSample (S i)) = false.
Proof.
  unfold mergeCondition. apply andb_false_iff. right. apply lt_false.
  cbn [timestamp rawSample sampleEntry LocationHistoryEntry.timestamp].
  rewrite S_INR. lra.
Qed.

Lemma rawSamples_nonMergeable_from (n start : nat)
    (lastEntry : option LocationHistoryEntry.t) :
  lastEntry = None
  \/ (exists i, start = S i
      /\ lastEntry
         = Some (sampleEntry (positionCoord (rawSample i)) (rawSample i))) ->
  nonMergeable lastEntry (map rawSample (seq start n)).
Proof.
  revert start lastEntry.
  induction n as [|n IH]; intros start lastEntry Hprev; [done|].
  cbn [seq map nonMergeable]. split.
  - destruct Hprev as [->|(i & -> & ->)]; [done|].
    apply rawSample_mergeCondition.
  - apply IH. right. by exists start.
Qed.

Lemma rawSamples_nonMergeable (n : nat) : nonMergeable None (rawSamples n).
Proof. apply rawSamples_nonMergeable_from. by left. Qed.

(** After [n] raw samples the array holds the entries of the last
    [min n 101] of them. *)
Lemma compactAll_rawSamples (n : nat) :
  compactAll [] (rawSamples n)
  = map (fun position => sampleEntry (positionCoord position) position)
      (drop (n - S MAX_HISTORY_LENGTH) (rawSamples n)).
Proof.
  rewrite compactAll_nonMergeable;
    [|cbn; lia|apply rawSamples_nonMergeable].
  cbn [length app Nat.add]. unfold rawSamples at 1.
  rewrite length_map, length_seq. symmetry. apply fmap_drop.
Qed.

(** The component follows the array: once the history is at hand, running
    the compactor over positions stores [compactAll]. *)
Lemma recordAll_positions `{!JSON (list LocationHistoryEntry.t)}
    (positions : list GeolocationPosition) :
  forall (this : CompassRadar) (history : list LocationHistoryEntry.t),
  locationHistory this = Some (OfType history)
  \/ (locationHistory this = None
      /\ localStorage this !! locationHistoryKey = None /\ history = []) ->
  positions <> [] ->
  locationHistory
    (recordAll (map (fun position => Some (Position position)) positions)
       this)
  = Some (OfType (compactAll history positions)).
Proof.
  induction positions as [|position rest IH]; intros this history Hh Hne;
    [done|].
  cbn [map recordAll foldl compactAll].
  rewrite (recordHistory_position position this history Hh). cbv zeta.
  cbn [snd]. destruct rest as [|position' rest']; [done|].
  apply IH; [by left|done].
Qed.

Lemma rawSamples_history_length (n : nat) :
  length (compactAll [] (rawSamples n)) = Nat.min n (S MAX_HISTORY_LENGTH).
Proof.
  rewrite compactAll_rawSamples, length_map, length_drop.
  unfold rawSamples. rewrite length_map, length_seq. lia.
Qed.

(** C1: the history after 150 raw non-mergeable samples, starting with
    nothing stored. The claim is that its length is 100 and that it holds
    the 100 most recent samples; the stored array has 101 entries, those of
    samples 49 to 149 in insertion order, one more than
    [MAX_HISTORY_LENGTH]. *)
Theorem history_after_150_raw_samples
    `{!JSON (list LocationHistoryEntry.t)} :
  nonMergeable None (rawSamples 150)
  /\ exists history : list LocationHistoryEntry.t,
       locationHistory
         (recordAll
            (map (fun position => Some (Position position)) (rawSamples 150))
            emptyComponent)
       = Some (OfType history)
       /\ length history = 101%nat
       /\ history
          = map (fun i => sampleEntry (positionCoord (rawSample i))
                            (rawSample i))
              (seq 49 101).
Proof.
  split; [apply rawSamples_nonMergeable|].
  exists (compactAll [] (rawSamples 150)). split; [|split].
  - apply recordAll_positions; [|done].
    right. cbn [emptyComponent locationHistory localStorage].
    by rewrite lookup_empty.
  - by rewrite rawSamples_history_length.
  - rewrite compactAll_rawSamples. unfold rawSamples, MAX_HISTORY_LENGTH.
    rewrite <- fmap_drop.
    replace (drop (150 - 101) (seq 0 150)) with (seq 49 101)
      by reflexivity.
    rewrite <- list_fmap_compose. done.
Qed.

(** ** Values that are not a position fix *)

(** C8 (as the code has it): given an error or no location, the compactor
    returns that value to its caller without throwing and leaves the
    component, history included, as it was; [parseLocationEvent] throws on
    such a value, and the compactor never hands it one. *)
Theorem recordHistory_returns_what_is_not_a_fix
    `{!JSON (list LocationHistoryEntry.t)}
    (this : CompassRadar) (error : GeolocationPositionError) :
  recordHistory (Some (PositionError error)) this
  = (Return (Some (PositionError error)), this)
  /\ recordHistory None this = (Return None, this)
  /\ parseLocationEvent (Some (PositionError error))
     = Throw (ThrownPositionError error)
  /\ parseLocationEvent None = Throw (ThrownError "No location available").
Proof. repeat split. Qed.

(** The compactor, given a permission error in a browser with nothing
    stored, does not throw: it returns the error. *)
Lemma recordHistory_error_does_not_throw :
  let denied :=
    Some (PositionError {| code := 1; message := "User denied Geolocation" |})
  in
  isThrow (recordHistory (historyJSON := writeOnlyJSON) denied emptyComponent).1
  = false
  /\ (recordHistory (historyJSON := writeOnlyJSON) denied emptyComponent).1
     = Return denied.
Proof. split; reflexivity. Qed.

(** ** The bookmark store *)

(** After [clear()], [get()] finds neither a cached value nor a backing
    record and returns the default value. *)
Lemma get_after_clear {T : Type} `{!JSON T} (key : string)
    (defaultValue : option T) (localStorage : gmap string string) :
  let '(value, localStorage') :=
    localStorageValue.clear (T := T) key localStorage in
  localStorageValue.get key defaultValue localStorage' value
  = Return (OfType <$> defaultValue).
Proof.
  unfold localStorageValue.clear, localStorageValue.get.
  by rewrite lookup_delete_eq.
Qed.

(** C10: after [clearBookmarks], the store holds no cached value and no
    backing record, and [bookmarks.get()] returns [undefined], not an empty
    array, leaving the store as it is; a caller has to read [undefined] as
    the empty sequence, as [addBookmark] does: it then stores the one new
    bookmark. *)
Theorem bookmarks_get_after_clear_is_undefined
    `{!JSON (list LocationBookmark.t)}
    (this : CompassRadar) (point : Coord) (random now : R) :
  let cleared := clearBookmarks this in
  bookmarks cleared = None
  /\ localStorage cleared !! bookmarksKey = None
  /\ getBookmarks cleared = (Return None, cleared)
  /\ (getBookmarks cleared).1 <> Return (Some (OfType []))
  /\ bookmarks (addBookmark point random now cleared).2
     = Some (OfType [ {| LocationBookmark.coord := point;
                         LocationBookmark.hue := random * 360;
                         LocationBookmark.label := None;
                         LocationBookmark.createdAt := Some now |} ]).
Proof.
  cbv zeta. unfold clearBookmarks, getBookmarks, addBookmark.
  unfold localStorageValue.clear, localStorageValue.get,
    localStorageValue.set.
  cbn [bookmarks localStorage locationHistory].
  rewrite lookup_delete_eq. cbn. repeat split; done.
Qed.

(** ** [listeningSignal] *)

Section ListeningSignalFacts.
Context {T : Type} `{!EqDecision T}.
Implicit Types (s : listeningSignal.State T) (value : T).

Import listeningSignal.

(** A push schedules a check and runs none: nothing is torn down in the
    turn of the update. *)
Lemma update_runs_no_check s value :
  teardownCalls (update value s) = teardownCalls s
  /\ setupCalls (update value s) = setupCalls s
  /\ cleanup (update value s) = cleanup s
  /\ timers (update value s) = S (timers s)
  /\ sigState (update value s) = Some value.
Proof. done. Qed.

(** A push that changes the signal makes the computed recompute; one that
    does not leaves the memo. *)
Lemma update_changed s value :
  sigState s <> Some value -> memo (update value s) = None.
Proof.
  intros Hne. unfold update. cbn [memo]. by rewrite bool_decide_eq_false_2.
Qed.

Lemma update_unchanged s value :
  sigState s = Some value -> memo (update value s) = memo s.
Proof.
  intros Heq. unfold update. cbn [memo]. by rewrite bool_decide_eq_true_2.
Qed.

Lemma update_dirty s value : memo s = None -> memo (update value s) = None.
Proof.
  intros Hm. unfold update. cbn [memo]. rewrite Hm.
  by destruct (negb _).
Qed.

(** Pushes in a row, none read: the last one is the value of the signal,
    [used] is off and every push left a timer. *)
Lemma updates_after_update (more : list T) : forall s value,
  let pushed := updates more (update value s) in
  sigState pushed = Some (default value (last more))
  /\ cleanup pushed = cleanup s
  /\ used pushed = false
  /\ timers pushed = S (timers s + length more)
  /\ setupCalls pushed = setupCalls s
  /\ teardownCalls pushed = teardownCalls s.
Proof.
  induction more as [|value' more IH]; intros s value.
  - cbn. by rewrite Nat.add_0_r.
  - cbn [updates foldl]. fold (updates more (update value' (update value s))).
    destruct (IH (update value s) value') as (-> & -> & -> & -> & -> & ->).
    cbn [update cleanup timers setupCalls teardownCalls length].
    rewrite last_cons. split; [by destruct (last more)|].
    repeat split. lia.
Qed.

(** Once the computed has to recompute, further pushes leave it so. *)
Lemma updates_dirty (more : list T) : forall s,
  memo s = None -> memo (updates more s) = None.
Proof.
  induction more as [|value more IH]; intros s Hm; [done|].
  cbn [updates foldl]. apply IH. by apply update_dirty.
Qed.

(** A check with [used] off and a subscription at hand tears it down. *)
Lemma timeout_idle s (k n : nat) :
  used s = false -> cleanup s = Some k -> timers s = S n ->
  timeout s
  = {| sigState := sigState s;
       cleanup := None;
       used := false;
       memo := memo s;
       timers := n;
       setupCalls := setupCalls s;
       teardownCalls := S (teardownCalls s) |}.
Proof.
  intros Hu Hc Ht. unfold timeout, idleCheck, unsubscribe.
  rewrite Ht. cbn. by rewrite Hu, Hc.
Qed.

(** A check with [used] on does nothing but use up its timer. *)
Lemma timeout_used s :
  used s = true ->
  timeout s
  = {| sigState := sigState s;
       cleanup := cleanup s;
       used := true;
       memo := memo s;
       timers := Nat.pred (timers s);
       setupCalls := setupCalls s;
       teardownCalls := teardownCalls s |}.
Proof.
  intros Hu. unfold timeout, idleCheck. destruct s as [? ? ? ? [|n] ? ?];
    cbn in *; by rewrite Hu.
Qed.

(** Checks that find no subscription tear nothing down. *)
Lemma timeouts_unsubscribed (n : nat) : forall s,
  cleanup s = None ->
  timeouts n s
  = {| sigState := sigState s;
       cleanup := None;
       used := used s;
       memo := memo s;
       timers := timers s - n;
       setupCalls := setupCalls s;
       teardownCalls := teardownCalls s |}.
Proof.
  induction n as [|n IH]; intros s Hc.
  - cbn. rewrite Nat.sub_0_r. by destruct s; cbn in *; subst.
  - unfold timeouts. rewrite Nat.iter_succ_r. fold (timeouts n (timeout s)).
    assert (timeout s
            = {| sigState := sigState s; cleanup := None; used := used s;
                 memo := memo s; timers := Nat.pred (timers s);
                 setupCalls := setupCalls s;
                 teardownCalls := teardownCalls s |}) as ->.
    { unfold timeout, idleCheck.
      destruct s as [? ? [|] ? [|m] ? ?]; cbn in *; by subst. }
    rewrite IH by done. cbn. f_equal. lia.
Qed.

(** Pushes that nobody reads, then checks: the first check that runs tears
    the subscription down, the others find none. The signal and the memo
    stay as the pushes left them. *)
Lemma idle_checks_tear_down_once s value (more : list T) (checks k : nat) :
  cleanup s = Some k ->
  (0 < checks)%nat ->
  let pushed := updates more (update value s) in
  timeouts checks pushed
  = {| sigState := Some (default value (last more));
       cleanup := None;
       used := false;
       memo := memo pushed;
       timers := timers s + length more - Nat.pred checks;
       setupCalls := setupCalls s;
       teardownCalls := S (teardownCalls s) |}.
Proof.
  intros Hc Hn pushed.
  destruct (updates_after_update more s value)
    as (Hsig & Hcl & Hu & Ht & Hset & Htear). fold pushed in Hsig, Hcl, Hu, Ht,
    Hset, Htear.
  destruct checks as [|n]; [lia|].
  unfold timeouts. rewrite Nat.iter_succ_r.
  match goal with |- context [Nat.iter n timeout ?x] =>
    fold (timeouts n x) end.
  rewrite (timeout_idle _ k (timers s + length more)) by congruence.
  rewrite timeouts_unsubscribed by done. cbn.
  by rewrite Hsig, Hset, Htear.
Qed.

(** A read of a computed that has to recompute, with no subscription: one
    [setup] call, and the value of the signal. *)
Lemma read_unsubscribed s :
  memo s = None -> cleanup s = None ->
  read s
  = (sigState s,
     {| sigState := sigState s;
        cleanup := Some (setupCalls s);
        used := true;
        memo := Some (sigState s);
        timers := timers s;
        setupCalls := S (setupCalls s);
        teardownCalls := teardownCalls s |}).
Proof.
  intros Hm Hc. unfold read, callback, subscribe. destruct s; cbn in *.
  by subst.
Qed.

(** A read of a computed that has to recompute, with a subscription: no
    [setup] call. *)
Lemma read_subscribed s (k : nat) :
  memo s = None -> cleanup s = Some k ->
  read s
  = (sigState s,
     {| sigState := sigState s;
        cleanup := Some k;
        used := true;
        memo := Some (sigState s);
        timers := timers s;
        setupCalls := setupCalls s;
        teardownCalls := teardownCalls s |}).
Proof.
  intros Hm Hc. unfold read, callback. destruct s; cbn in *. by subst.
Qed.

(** A read of a computed that has nothing to recompute runs no callback:
    the state stays as it is, [used] and the subscription included. *)
Lemma read_memoized s (cached : option T) :
  memo s = Some cached -> read s = (cached, s).
Proof. intros Hm. unfold read. by rewrite Hm. Qed.

(** The memo is consistent in every state the adapter reaches. *)
Lemma consistent_step s (e : Event T) : consistent s -> consistent (step s e).
Proof.
  unfold consistent. intros Hs. destruct e as [|value|].
  - cbn [step]. unfold read. destruct (memo s) as [cached|] eqn:Hm.
    + cbn. by rewrite Hm.
    + unfold callback. by destruct (cleanup s).
  - cbn [step]. unfold update. cbn [memo sigState].
    destruct (bool_decide_reflect (sigState s = Some value)) as [Heq|Hne];
      cbn [negb]; [|done].
    destruct (memo s); [|done]. congruence.
  - cbn [step]. unfold timeout. destruct (timers s) as [|n]; [done|].
    unfold idleCheck. cbn. by destruct (used s), (cleanup s).
Qed.

Lemma consistent_run (events : list (Event T)) :
  forall s, consistent s -> consistent (run events s).
Proof.
  induction events as [|e events IH]; intros s Hs; [done|].
  cbn [run foldl]. apply IH. by apply consistent_step.
Qed.

Lemma consistent_init : consistent (init (T := T)).
Proof. done. Qed.

Lemma consistent_updates (values : list T) :
  forall s, consistent s -> consistent (updates values s).
Proof.
  induction values as [|value values IH]; intros s Hs; [done|].
  cbn [updates foldl]. apply IH. apply (consistent_step s (Update value) Hs).
Qed.

(** In a consistent state a read returns the value of the signal, and
    leaves it and the consistency as they are. *)
Lemma read_value s : consistent s -> (read s).1 = sigState s.
Proof.
  unfold consistent, read. destruct (memo s) as [cached|]; [done|].
  intros _. unfold callback. by destruct (cleanup s).
Qed.

Lemma read_sigState s : sigState (read s).2 = sigState s.
Proof.
  unfold read. destruct (memo s); [done|].
  unfold callback. by destruct (cleanup s).
Qed.

(** A read after a push that changed the signal keeps the subscription
    through the next check. *)
Lemma read_after_update_prevents_teardown s value (k : nat) :
  sigState s <> Some value ->
  cleanup s = Some k ->
  let s' := timeout (read (update value s)).2 in
  teardownCalls s' = teardownCalls s
  /\ cleanup s' = Some k
  /\ setupCalls s' = setupCalls s.
Proof.
  intros Hne Hc. cbv zeta.
  rewrite (read_subscribed (update value s) k)
    by (by apply update_changed || done).
  rewrite timeout_used by done. done.
Qed.

(** A read after a push that did not change the signal, of a computed that
    has nothing to recompute, does not keep the subscription: no callback
    runs, [used] stays off, and the next check tears down. *)
Lemma read_after_equal_update_does_not_prevent_teardown
    s value (cached : option T) (k : nat) :
  sigState s = Some value ->
  memo s = Some cached ->
  cleanup s = Some k ->
  let s' := timeout (read (update value s)).2 in
  teardownCalls s' = S (teardownCalls s) /\ cleanup s' = None.
Proof.
  intros Heq Hm Hc. cbv zeta.
  rewrite (read_memoized (update value s) cached)
    by (by rewrite update_unchanged).
  cbn [snd]. by rewrite (timeout_idle _ k (timers s)).
Qed.

End ListeningSignalFacts.

Section ListeningSignalClaims.
Context {T : Type} `{!EqDecision T}.
Implicit Types (s : listeningSignal.State T) (value : T).

Import listeningSignal.

(** C2 (as the code has it): in any state the adapter reaches with a
    subscription at hand, after pushes that nobody reads and the idle
    teardown, a read returns the value pushed last before the teardown, not
    [undefined]: the teardown does not reset the signal. Later reads return
    that value too, until the source pushes a new value, which is then the
    one read. The read after the teardown calls [setup] afresh, once, when
    the computed has to recompute, which it has when a push changed the
    signal since it was computed last; the first of the pushes does when it
    differs from the value the signal held. *)
Theorem read_after_teardown_returns_the_last_value
    (events : list (Event T)) value (more : list T) (checks k : nat) :
  let s := run events init in
  cleanup s = Some k ->
  (0 < checks)%nat ->
  let pushed := updates more (update value s) in
  let idle := timeouts checks pushed in
  let lastPushed := default value (last more) in
  (teardownCalls idle = S (teardownCalls s) /\ cleanup idle = None)
  /\ (read idle).1 = Some lastPushed
  /\ (read (read idle).2).1 = Some lastPushed
  /\ (forall value', (read (update value' (read idle).2)).1 = Some value')
  /\ (memo pushed = None ->
      setupCalls (read idle).2 = S (setupCalls s)
      /\ cleanup (read idle).2 = Some (setupCalls s)
      /\ setupCalls (read (read idle).2).2 = S (setupCalls s))
  /\ (sigState s <> Some value -> memo pushed = None).
Proof.
  intros s Hc Hn pushed idle lastPushed.
  assert (consistent s) as Hs by apply consistent_run, consistent_init.
  assert (consistent pushed) as Hpushed.
  { apply consistent_updates. apply (consistent_step s (Update value) Hs). }
  assert (idle
          = {| sigState := Some lastPushed; cleanup := None; used := false;
               memo := memo pushed;
               timers := timers s + length more - Nat.pred checks;
               setupCalls := setupCalls s;
               teardownCalls := S (teardownCalls s) |}) as Hidle
    by (by apply (idle_checks_tear_down_once s value more checks k)).
  assert (sigState pushed = Some lastPushed) as Hsig
    by apply updates_after_update.
  assert (consistent idle) as Hci.
  { rewrite Hidle. unfold consistent in *. cbn [memo sigState].
    by rewrite <- Hsig. }
  assert (consistent (read idle).2) as Hcr
    by apply (consistent_step idle Read Hci).
  assert (sigState idle = Some lastPushed) as Hsi by (by rewrite Hidle).
  split; [by rewrite Hidle|].
  split; [by rewrite read_value|].
  split; [by rewrite read_value, read_sigState|].
  split; [|split].
  - intros value'. rewrite read_value; [done|].
    apply (consistent_step _ (Update value') Hcr).
  - intros Hm. rewrite Hidle, Hm. by rewrite read_unsubscribed.
  - intros Hne. apply updates_dirty. by apply update_changed.
Qed.

(** C3: a push, a read, a second push, and then the check that the first
    push scheduled. The claim is that this check leaves the subscription
    alone, a read having followed its push; the check finds [used] reset by
    the second push and tears the subscription down. *)
Theorem update_read_update_check_tears_down (value1 value2 : T) :
  let s := run [Read; Update value1; Read; Update value2] init in
  (cleanup s = Some 0%nat /\ timers s = 2%nat /\ teardownCalls s = 0%nat)
  /\ teardownCalls (timeout s) = 1%nat
  /\ cleanup (timeout s) = None
  /\ timers (timeout s) = 1%nat.
Proof. cbv zeta. cbn. done. Qed.

(** C4: a read subscribes, a value is pushed and read, and its check runs;
    the same value is pushed again, nobody reads it, and its check tears
    the subscription down, once. The claim is that a subsequent read calls
    [setup] again; the signal did not change with the second push, so the
    read returns the value the computed holds and runs no callback: [setup]
    has still been called once, no subscription is held, and further reads
    change nothing. *)
Theorem read_after_equal_push_teardown_calls_no_setup
    (value : T) (n : nat) :
  let s :=
    run [Read; Update value; Read; Timeout; Update value; Timeout] init in
  (setupCalls s = 1%nat /\ teardownCalls s = 1%nat /\ cleanup s = None)
  /\ (read s).1 = Some value
  /\ setupCalls (read s).2 = 1%nat
  /\ cleanup (read s).2 = None
  /\ setupCalls (reads n s) = 1%nat
  /\ cleanup (reads n s) = None.
Proof.
  cbv zeta. cbn. rewrite bool_decide_eq_true_2 by done. cbn.
  split; [done|]. split; [done|]. split; [done|]. split; [done|].
  induction n as [|n IH]; [done|].
  unfold reads in *. rewrite Nat.iter_succ_r. exact IH.
Qed.

End ListeningSignalClaims.

(** A value is pushed and nobody reads it: the check tears down, and the
    next read subscribes again and returns the value, not [undefined]. *)
Lemma read_after_teardown_is_not_undefined :
  let s := listeningSignal.run
             [listeningSignal.Read; listeningSignal.Update 7%nat;
              listeningSignal.Timeout]
             listeningSignal.init in
  listeningSignal.teardownCalls s = 1%nat
  /\ listeningSignal.cleanup s = None
  /\ (listeningSignal.read s).1 = Some 7%nat
  /\ listeningSignal.setupCalls (listeningSignal.read s).2 = 2%nat.
Proof. cbv zeta. cbn. done. Qed.

Lemma read_after_teardown_returns_the_last_value_witness :
  let s := listeningSignal.run (T := nat) [listeningSignal.Read]
             listeningSignal.init in
  let idle :=
    listeningSignal.timeouts 2
      (listeningSignal.updates [8%nat] (listeningSignal.update 7%nat s)) in
  listeningSignal.cleanup s = Some 0%nat
  /\ (listeningSignal.read idle).1 = Some 8%nat
  /\ listeningSignal.setupCalls (listeningSignal.read idle).2 = 2%nat.
Proof.
  intros s idle.
  assert (listeningSignal.cleanup s = Some 0%nat) as Hc by reflexivity.
  assert (0 < 2)%nat as Hn by lia.
  split; [exact Hc|].
  destruct (read_after_teardown_returns_the_last_value
              [listeningSignal.Read] 7%nat [8%nat] 2 0%nat Hc Hn)
    as (_ & Hv & _ & _ & Hsetup & _).
  split; [exact Hv|]. exact (proj1 (Hsetup eq_refl)).
Defined.

(** ** [asyncComputed] *)

Section AsyncComputedFacts.
Context {T : Type}.
Implicit Types (s : asyncComputed.State T) (result : T).

Import asyncComputed.

(** A result is applied when nothing was applied yet or the applied count is
    smaller, and dropped otherwise. *)
Lemma resolve_applied s (count : nat) result :
  sigState s = None
  \/ (exists current, sigState s = Some current /\ (current.1 < count)%nat) ->
  resolve count result s
  = {| counter := counter s; sigState := Some (count, result) |}.
Proof.
  unfold resolve. intros [->|(current & -> & Hlt)]; [done|].
  by apply Nat.ltb_lt in Hlt as ->.
Qed.

Lemma resolve_dropped s (count : nat) result (current : nat * T) :
  sigState s = Some current -> (count <= current.1)%nat ->
  resolve count result s = s.
Proof.
  unfold resolve. intros -> Hle. by apply Nat.ltb_ge in Hle as ->.
Qed.

(** When the output changes, the count of the result is above the applied
    one. *)
Lemma resolve_changes_only_if_newer s (count : nat) result :
  resolve count result s <> s ->
  match sigState s with
  | Some current => (current.1 < count)%nat
  | None => True
  end.
Proof.
  intros Hne. destruct (sigState s) as [current|] eqn:Hs; [|done].
  destruct (Nat.lt_ge_cases current.1 count) as [|Hle]; [done|].
  destruct Hne. by apply (resolve_dropped s count result current).
Qed.

Lemma wellFormed_init : wellFormed (init (T := T)).
Proof. done. Qed.

Lemma wellFormed_step s (e : Event T) : wellFormed s -> wellFormed (step s e).
Proof.
  unfold wellFormed. intros Hwf. destruct e as [|count result|count].
  - cbn. destruct (sigState s); [lia|done].
  - cbn [step]. destruct (Nat.ltb_spec count (counter s)) as [Hlt|]; [|done].
    unfold resolve. destruct (sigState s) as [current|] eqn:Hs.
    + destruct (current.1 <? count)%nat; cbn [sigState counter fst];
        [done|by rewrite Hs].
    + done.
  - done.
Qed.

(** Every state the adapter reaches is well formed. *)
Lemma wellFormed_run (events : list (Event T)) :
  forall s, wellFormed s -> wellFormed (run events s).
Proof.
  induction events as [|e events IH]; intros s Hwf; [done|].
  cbn [run foldl]. apply IH. by apply wellFormed_step.
Qed.

(** C7: a resolved result is applied only if its count is greater than that
    of the result applied last (or nothing was applied yet); so when two
    calls are started in order and the second resolves first, the output is
    the second's result, and the late result of the first is discarded. *)
Theorem stale_result_is_discarded s (result1 result2 : T) :
  wellFormed s ->
  let first := start s in
  let second := start first.2 in
  let fast := resolve second.1 result2 second.2 in
  let late := resolve first.1 result1 fast in
  (forall s' (count : nat) result,
     sigState (resolve count result s') = Some (count, result)
     /\ match sigState s' with
        | Some current => (current.1 < count)%nat
        | None => True
        end
     \/ resolve count result s' = s')
  /\ (first.1 < second.1)%nat
  /\ output fast = Some result2
  /\ late = fast
  /\ output late = Some result2.
Proof.
  intros Hwf. cbv zeta. split; [|split; [|split; [|split]]].
  - intros s' count result. unfold resolve.
    destruct (sigState s') as [current|] eqn:Hs.
    + destruct (Nat.ltb_spec current.1 count); [by left|by right].
    + by left.
  - cbn. lia.
  - unfold wellFormed in Hwf. rewrite resolve_applied; [done|].
    cbn. destruct (sigState s) as [current|]; [right|by left].
    exists current. split; [done|lia].
  - assert (resolve (start (start s).2).1 result2 (start (start s).2).2
            = {| counter := S (S (counter s));
                 sigState := Some (S (counter s), result2) |}) as ->.
    { unfold wellFormed in Hwf. rewrite resolve_applied; [done|].
      cbn. destruct (sigState s) as [current|]; [right|by left].
      exists current. split; [done|lia]. }
    apply (resolve_dropped _ _ _ (S (counter s), result2)); [done|].
    cbn. lia.
  - assert (resolve (start (start s).2).1 result2 (start (start s).2).2
            = {| counter := S (S (counter s));
                 sigState := Some (S (counter s), result2) |}) as ->.
    { unfold wellFormed in Hwf. rewrite resolve_applied; [done|].
      cbn. destruct (sigState s) as [current|]; [right|by left].
      exists current. split; [done|lia]. }
    rewrite (resolve_dropped _ _ _ (S (counter s), result2)); [done|done|].
    cbn. lia.
Qed.

End AsyncComputedFacts.

(** One call was started earlier; the calls with counts 1 and 2 start in
    order, 2 resolves first with ["fast"], then 1 with ["slow"]. *)
Lemma stale_result_is_discarded_witness :
  let s := (asyncComputed.start (T := string) asyncComputed.init).2 in
  let first := asyncComputed.start s in
  let second := asyncComputed.start first.2 in
  let fast := asyncComputed.resolve second.1 "fast"%string second.2 in
  let late := asyncComputed.resolve first.1 "slow"%string fast in
  asyncComputed.wellFormed s
  /\ (first.1 = 1%nat /\ second.1 = 2%nat)
  /\ asyncComputed.output late = Some "fast"%string.
Proof.
  intros s first second fast late.
  assert (asyncComputed.wellFormed s) as Hwf by exact I.
  split; [exact Hwf|]. split; [split; reflexivity|].
  destruct (stale_result_is_discarded s "slow"%string "fast"%string Hwf)
    as (_ & _ & _ & _ & Hout).
  exact Hout.
Defined.

(** * Part III: further properties of the code *)

(** ** Distance and the radial display *)

Lemma atan2_quadrant (y x : R) :
  0 <= y -> 0 <= x -> JS.Math_atan2 y x <= PI / 2.
Proof.
  intros Hy Hx. pose proof PI_RGT_0 as HPI. unfold JS.Math_atan2.
  pose proof (atan_bound (y / x)) as Hb.
  destruct (Rlt_dec 0 x); [lra|]. destruct (Rlt_dec x 0); [lra|].
  destruct (Rlt_dec 0 y); [lra|]. destruct (Rlt_dec y 0); lra.
Qed.

Lemma distance_le_half_circumference (first second : Coord) :
  distance first second <= HALF_EARTH_CIRCUMFERENCE.
Proof.
  unfold distance, HALF_EARTH_CIRCUMFERENCE, EARTH_RADIUS. cbv zeta.
  match goal with |- _ * (2 * JS.Math_atan2 ?y ?x) <= _ =>
    pose proof (atan2_quadrant y x (sqrt_pos _) (sqrt_pos _)) end.
  nra.
Qed.

Lemma half_circumference_pos : 0 < HALF_EARTH_CIRCUMFERENCE.
Proof.
  unfold HALF_EARTH_CIRCUMFERENCE, EARTH_RADIUS. pose proof PI_RGT_0. nra.
Qed.

Lemma ln_half_circumference_pos : 0 < ln (HALF_EARTH_CIRCUMFERENCE + 1).
Proof.
  rewrite <- ln_1. apply ln_increasing; [lra|].
  pose proof half_circumference_pos. lra.
Qed.

Lemma distanceToRadius_increasing (d1 d2 : R) :
  0 <= d1 -> d1 < d2 -> distanceToRadius d1 < distanceToRadius d2.
Proof.
  intros H1 H12. unfold distanceToRadius, DISTANCE_LOG_FACTOR, svgSize.
  pose proof ln_half_circumference_pos as Hln.
  assert (ln (d1 + 1) < ln (d2 + 1)) as Hlt by (apply ln_increasing; lra).
  pose proof (Rinv_0_lt_compat _ Hln) as Hinv.
  unfold Rdiv. rewrite Rmult_1_l. nra.
Qed.

Lemma distanceToRadius_zero : distanceToRadius 0 = 0.
Proof.
  unfold distanceToRadius. rewrite Rplus_0_l, ln_1. lra.
Qed.

Lemma distanceToRadius_half_circumference :
  distanceToRadius HALF_EARTH_CIRCUMFERENCE = svgSize / 2.
Proof.
  unfold distanceToRadius, DISTANCE_LOG_FACTOR.
  pose proof ln_half_circumference_pos. field. lra.
Qed.

Lemma distanceToRadius_of_distance (first second : Coord) :
  0 <= distanceToRadius (distance first second) <= svgSize / 2.
Proof.
  pose proof (distance_nonneg first second) as [Hpos|Hzero];
    pose proof (distance_le_half_circumference first second) as [Hlt|Heq].
  - pose proof (distanceToRadius_increasing 0 _ (Rle_refl 0) Hpos).
    pose proof (distanceToRadius_increasing _ _ (Rlt_le _ _ Hpos) Hlt).
    rewrite distanceToRadius_zero, distanceToRadius_half_circumference in *.
    lra.
  - pose proof (distanceToRadius_increasing 0 _ (Rle_refl 0) Hpos).
    rewrite Heq, distanceToRadius_zero, distanceToRadius_half_circumference
      in *. lra.
  - rewrite <- Hzero, distanceToRadius_zero. unfold svgSize. lra.
  - rewrite <- Hzero, distanceToRadius_zero. unfold svgSize. lra.
Qed.

(** X1: the great-circle distance is symmetric, zero from a point to
    itself, and lies between 0 and half the circumference of the Earth. *)
Theorem distance_symmetric_and_bounded (first second : Coord) :
  distance first second = distance second first
  /\ distance first first = 0
  /\ 0 <= distance first second <= HALF_EARTH_CIRCUMFERENCE.
Proof.
  split; [apply distance_sym|]. split; [apply distance_same|].
  split; [apply distance_nonneg | apply distance_le_half_circumference].
Qed.

(** X2: the display radius is 0 at distance 0 and half the size of the
    drawing at half the circumference, and it increases strictly with the
    distance; so the radius of every distance between two coordinates lies
    between 0 and half the size of the drawing. *)
Theorem distanceToRadius_is_a_bounded_increasing_scale :
  distanceToRadius 0 = 0
  /\ distanceToRadius HALF_EARTH_CIRCUMFERENCE = svgSize / 2
  /\ (forall d1 d2 : R,
        0 <= d1 -> d1 < d2 -> distanceToRadius d1 < distanceToRadius d2)
  /\ (forall first second : Coord,
        0 <= distanceToRadius (distance first second) <= svgSize / 2).
Proof.
  split; [apply distanceToRadius_zero|].
  split; [apply distanceToRadius_half_circumference|].
  split; [apply distanceToRadius_increasing|].
  apply distanceToRadius_of_distance.
Qed.

(** A point at [radius] from the centre of the drawing, in any direction,
    is within the disc when the radius is. *)
Lemma on_circle (bearing radius : R) :
  (cos (bearing - PI / 2) * radius + svgSize / 2 - svgSize / 2) ^ 2
  + (sin (bearing - PI / 2) * radius + svgSize / 2 - svgSize / 2) ^ 2
  = radius ^ 2.
Proof.
  pose proof (sin2_cos2 (bearing - PI / 2)) as Hsc.
  unfold Rsqr in Hsc.
  replace (cos (bearing - PI / 2) * radius + svgSize / 2 - svgSize / 2)
    with (cos (bearing - PI / 2) * radius) by ring.
  replace (sin (bearing - PI / 2) * radius + svgSize / 2 - svgSize / 2)
    with (sin (bearing - PI / 2) * radius) by ring.
  nra.
Qed.

(** X3: every bookmark is drawn inside the compass disc: its point lies at
    its display radius from the centre of the drawing, in the direction of
    its bearing, and that radius is at most half the size of the drawing;
    there is one point per bookmark, none when [get()] gave [undefined]. *)
Theorem bookmarks_are_drawn_inside_the_compass
    (coord : Coord) (point : LocationBookmark.t)
    (points : list LocationBookmark.t) :
  let p := polarCoordinate coord point in
  ((PolarCoordinate.x p - svgSize / 2) ^ 2
   + (PolarCoordinate.y p - svgSize / 2) ^ 2
   = PolarCoordinate.radius p ^ 2
   /\ 0 <= PolarCoordinate.radius p <= svgSize / 2
   /\ 0 <= PolarCoordinate.angle p < 2 * PI
   /\ PolarCoordinate.hue p = LocationBookmark.hue point)
  /\ length (polarCoordinates coord (Some points)) = length points
  /\ polarCoordinates coord None = [].
Proof.
  cbv zeta. split; [|split].
  - unfold polarCoordinate. cbn. split; [apply on_circle|].
    split; [apply distanceToRadius_of_distance|]. split; [|done].
    unfold calculateBearing. cbv zeta. apply rem_shift_rem, two_PI_pos.
  - unfold polarCoordinates. cbn. by rewrite length_map.
  - done.
Qed.

(** X4: the history path is [nothing] when there is no history or an empty
    one; otherwise it has one point per entry, each inside the compass
    disc. *)
Theorem history_path_points_are_inside_the_compass
    (coord : Coord) (entry : LocationHistoryEntry.t)
    (rest : list LocationHistoryEntry.t) :
  renderLocationHistoryPath coord None = None
  /\ renderLocationHistoryPath coord (Some []) = None
  /\ exists points : list (R * R),
       renderLocationHistoryPath coord (Some (entry :: rest)) = Some points
       /\ length points = S (length rest)
       /\ Forall (fun point =>
                    (point.1 - svgSize / 2) ^ 2 + (point.2 - svgSize / 2) ^ 2
                    <= (svgSize / 2) ^ 2)
                 points.
Proof.
  split; [done|]. split; [done|].
  eexists. split; [reflexivity|]. split.
  - rewrite length_map. done.
  - apply Forall_map, Forall_forall. intros e _. cbn [fst snd].
    rewrite on_circle.
    pose proof (distanceToRadius_of_distance coord
                  (LocationHistoryEntry.coord e)) as Hr.
    unfold svgSize in *. nra.
Qed.

(** ** The stores *)



Lemma store_keys_differ : bookmarksKey <> locationHistoryKey.
Proof. done. Qed.

(** X6: the two stores do not disturb each other: recording a location
    leaves the bookmarks, cached and persisted, as they were, and adding or
    clearing bookmarks leaves the history as it was. *)
Theorem history_and_bookmarks_are_independent
    `{!JSON (list LocationHistoryEntry.t)} `{!JSON (list LocationBookmark.t)}
    (location : option Location) (point : Coord) (random now : R)
    (this : CompassRadar) :
  (bookmarks (recordHistory location this).2 = bookmarks this
   /\ localStorage (recordHistory location this).2 !! bookmarksKey
      = localStorage this !! bookmarksKey)
  /\ (locationHistory (addBookmark point random now this).2
      = locationHistory this
      /\ localStorage (addBookmark point random now this).2
           !! locationHistoryKey
         = localStorage this !! locationHistoryKey)
  /\ (locationHistory (clearBookmarks this) = locationHistory this
      /\ localStorage (clearBookmarks this) !! locationHistoryKey
         = localStorage this !! locationHistoryKey).
Proof.
  pose proof store_keys_differ as Hkeys. split; [|split].
  - unfold recordHistory. destruct location as [[position|error]|]; [|done..].
    cbn [parseLocationEvent].
    destruct (localStorageValue.get _ _ _ _) as [value|e]; [|done].
    destruct (asArray value) as [history|e]; [|done].
    unfold localStorageValue.set. cbn [snd bookmarks localStorage].
    split; [done|]. by rewrite lookup_insert_ne.
  - unfold addBookmark.
    destruct (localStorageValue.get _ _ _ _) as [value|e]; [|done].
    destruct (asArray value) as [existing|e]; [|done].
    unfold localStorageValue.set. cbn [snd locationHistory localStorage].
    split; [done|]. by rewrite lookup_insert_ne.
  - unfold clearBookmarks, localStorageValue.clear.
    cbn [locationHistory localStorage]. split; [done|].
    by rewrite lookup_delete_ne.
Qed.

(** X7: clearing the bookmarks twice is clearing them once, and the
    cleared state survives a reload: the persisted record is gone, so
    [bookmarks.get()] is [undefined] afterwards as well. *)
Theorem clearBookmarks_is_idempotent_and_persistent
    `{!JSON (list LocationBookmark.t)} (this : CompassRadar) :
  clearBookmarks (clearBookmarks this) = clearBookmarks this
  /\ getBookmarks (reload (clearBookmarks this))
     = (Return None, reload (clearBookmarks this)).
Proof.
  unfold clearBookmarks, getBookmarks, reload, localStorageValue.clear,
    localStorageValue.get.
  cbn [localStorage bookmarks locationHistory]. split.
  - by rewrite delete_delete_eq.
  - by rewrite lookup_delete_eq.
Qed.

Lemma addBookmark_cached `{!JSON (list LocationBookmark.t)}
    (added : Coord * R * R) (this : CompassRadar)
    (existing : list LocationBookmark.t) :
  bookmarks this = Some (OfType existing) ->
  addBookmark added.1.1 added.1.2 added.2 this
  = (Return tt,
     {| localStorage :=
          <[bookmarksKey := JSON_stringify (existing ++ [newBookmark added])]>
            (localStorage this);
        bookmarks := Some (OfType (existing ++ [newBookmark added]));
        locationHistory := locationHistory this |}).
Proof.
  intros Hb. unfold addBookmark, localStorageValue.get, localStorageValue.set.
  by rewrite Hb.
Qed.

Lemma addBookmarks_cached `{!JSON (list LocationBookmark.t)}
    (points : list (Coord * R * R)) :
  forall (this : CompassRadar) (existing : list LocationBookmark.t),
  bookmarks this = Some (OfType existing) ->
  bookmarks (addBookmarks points this)
  = Some (OfType (existing ++ map newBookmark points))
  /\ locationHistory (addBookmarks points this) = locationHistory this.
Proof.
  induction points as [|[[point random] now] points IH];
    intros this existing Hb.
  - cbn. by rewrite app_nil_r.
  - cbn [addBookmarks foldl].
    pose proof (addBookmark_cached (point, random, now) this existing Hb)
      as Hadd. cbn [fst snd] in Hadd. rewrite Hadd. cbn [snd].
    match goal with |- context [foldl ?f ?s points] =>
      change (foldl f s points) with (addBookmarks points s);
      destruct (IH s (existing ++ [newBookmark (point, random, now)])
                  eq_refl) as [-> ->]
    end.
    cbn [map locationHistory]. by rewrite <- app_assoc.
Qed.

(** X8: bookmarks are kept in the order they were added: with the list at
    hand, adding points appends one bookmark per point, in order, each at
    its point; and every hue lies in [[0, 360)] when every [Math.random()]
    lay in [[0, 1)]. *)
Theorem bookmarks_keep_insertion_order `{!JSON (list LocationBookmark.t)}
    (points : list (Coord * R * R)) (this : CompassRadar)
    (existing : list LocationBookmark.t) :
  bookmarks this = Some (OfType existing) ->
  Forall (fun added => 0 <= added.1.2 < 1) points ->
  exists added : list LocationBookmark.t,
    bookmarks (addBookmarks points this) = Some (OfType (existing ++ added))
    /\ map LocationBookmark.coord added = map (fun p => p.1.1) points
    /\ Forall (fun bookmark => 0 <= LocationBookmark.hue bookmark < 360)
              added.
Proof.
  intros Hb Hrandom. exists (map newBookmark points).
  split; [by apply addBookmarks_cached|]. split.
  - rewrite <- list_fmap_compose. done.
  - apply Forall_map. eapply Forall_impl; [exact Hrandom|].
    intros [[point random] now]. cbn. lra.
Qed.

Lemma bookmarks_keep_insertion_order_witness :
  let this :=
    {| localStorage := ∅; bookmarks := Some (OfType []);
       locationHistory := None |} in
  let points : list (Coord * R * R) :=
    [((0, 0), 0, 1000); ((1, 1), 0.5, 2000)] in
  exists added : list LocationBookmark.t,
    bookmarks (addBookmarks (JSON0 := writeOnlyJSON) points this)
    = Some (OfType added)
    /\ map LocationBookmark.coord added = [(0, 0); (1, 1)].
Proof.
  intros this points.
  assert (bookmarks this = Some (OfType [])) as Hb by reflexivity.
  assert (Forall (fun added : Coord * R * R => 0 <= added.1.2 < 1) points)
    as Hrandom.
  { repeat constructor; cbn; lra. }
  destruct (bookmarks_keep_insertion_order (JSON0 := writeOnlyJSON)
              points this [] Hb Hrandom) as (added & Hadded & Hcoords & _).
  exists added. split; [exact Hadded | exact Hcoords].
Defined.



(** ** The compactor as a whole *)

(** X10: the compactor returns the location it was given, whatever it is,
    or else it throws on what the history store holds: the [SyntaxError] of
    [JSON.parse], with no cached history and a stored text that is not empty
    and does not parse, the component left as it was; or a [TypeError], when
    the value cached or just parsed from the stored text is neither [null]
    nor an array, and that value is then the cached one, [localStorage] and
    the bookmarks left as they were. It never throws a position error. *)
Theorem recordHistory_returns_or_throws_on_the_stored_value
    `{!JSON (list LocationHistoryEntry.t)}
    (location : option Location) (this : CompassRadar) :
  (recordHistory location this).1 = Return location
  \/ (recordHistory location this = (Throw ThrownSyntaxError, this)
      /\ locationHistory this = None
      /\ exists savedValue : string,
           localStorage this !! locationHistoryKey = Some savedValue
           /\ savedValue <> ""%string
           /\ JSON_parse savedValue = None)
  \/ (exists text : string,
        recordHistory location this
        = (Throw ThrownTypeError,
           {| localStorage := localStorage this;
              bookmarks := bookmarks this;
              locationHistory := Some (NotOfType (ForeignOther text)) |})
        /\ (locationHistory this = Some (NotOfType (ForeignOther text))
            \/ (locationHistory this = None
                /\ exists savedValue : string,
                     localStorage this !! locationHistoryKey = Some savedValue
                     /\ savedValue <> ""%string
                     /\ JSON_parse savedValue
                        = Some (NotOfType (ForeignOther text))))).
Proof.
  unfold recordHistory. destruct location as [[position|error]|];
    [|by left..].
  cbn [parseLocationEvent]. unfold localStorageValue.get.
  destruct (locationHistory this) as [[history|[|text]]|] eqn:Hc;
    [by left|by left| |].
  { right. right. exists text. split; [done|]. by left. }
  destruct (localStorage this !! locationHistoryKey) as [savedValue|] eqn:Hls;
    [|by left].
  destruct (String.eqb savedValue "") eqn:Hempty; [by left|].
  apply String.eqb_neq in Hempty.
  destruct (JSON_parse savedValue) as [[history|[|text]]|] eqn:Hparse;
    [by left|by left| |].
  - right. right. exists text. split; [done|]. right. split; [done|].
    by exists savedValue.
  - right. left. split; [done|]. split; [done|]. by exists savedValue.
Qed.

(** X11: whenever the compactor returns for a position fix, the component
    holds a history that is not empty and has at most
    [MAX_HISTORY_LENGTH + 1] entries, the persisted text is that history
    serialised, and the last entry is at least as accurate as the fix; when
    it throws, [localStorage] and the bookmarks are as they were, and the
    history store holds what it held or the value, not an array, that was
    just read from the stored text. *)
Theorem recordHistory_leaves_a_bounded_history
    `{!JSON (list LocationHistoryEntry.t)}
    (position : GeolocationPosition) (this : CompassRadar) :
  match recordHistory (Some (Position position)) this with
  | (Return _, this') =>
      exists (history : list LocationHistoryEntry.t)
             (lastEntry : LocationHistoryEntry.t),
        locationHistory this' = Some (OfType history)
        /\ localStorage this' !! locationHistoryKey
           = Some (JSON_stringify history)
        /\ (1 <= length history <= S MAX_HISTORY_LENGTH)%nat
        /\ last history = Some lastEntry
        /\ LocationHistoryEntry.accuracy lastEntry
           <= accuracy (coords position)
  | (Throw _, this') =>
      localStorage this' = localStorage this
      /\ bookmarks this' = bookmarks this
      /\ (locationHistory this' = locationHistory this
          \/ locationHistory this = None
             /\ exists text : string,
                  locationHistory this' = Some (NotOfType (ForeignOther text)))
  end.
Proof.
  unfold recordHistory. cbn [parseLocationEvent].
  destruct (localStorageValue.get _ _ _ _) as [value|e] eqn:Hget;
    [|split; [done|]; split; [done|]; by left].
  destruct (asArray value) as [history|e] eqn:Harray.
  2:{ cbn [localStorage bookmarks locationHistory].
      split; [done|]. split; [done|].
      unfold localStorageValue.get in Hget.
      destruct (locationHistory this) as [cached|];
        [left; congruence|right; split; [done|]].
      destruct value as [[array|[|text]]|]; try done. by exists text. }
  unfold localStorageValue.set.
  set (coord := (latitude (coords position) / 180 * PI,
                 longitude (coords position) / 180 * PI)).
  pose proof (nextHistory_length_bound history coord position) as Hbound.
  assert (exists lastEntry,
            last (nextHistory history coord position) = Some lastEntry
            /\ LocationHistoryEntry.accuracy lastEntry
               <= accuracy (coords position)) as (lastEntry & Hlast & Hacc).
  { unfold nextHistory. cbv zeta.
    destruct (last (spliceHistory history)) as [l|]; [|].
    - destruct (mergeCondition l coord position).
      + eexists. split; [apply last_snoc|]. cbn. apply Rmin_l.
      + eexists. split; [apply last_snoc|]. cbn. lra.
    - eexists. split; [apply last_snoc|]. cbn. lra. }
  exists (nextHistory history coord position), lastEntry.
  cbn [locationHistory localStorage]. split; [done|].
  split; [by rewrite lookup_insert_eq|]. split; [|done].
  split; [|done]. apply last_Some in Hlast as [l' ->].
  rewrite length_app. cbn. lia.
Qed.


(** ** Merging *)

Lemma blend_nearer_target (target other t : R) :
  0 <= t <= 0.5 ->
  Rabs (target * (1 - t) + other * t - target)
  <= Rabs (target * (1 - t) + other * t - other).
Proof.
  intros Ht.
  replace (target * (1 - t) + other * t - target)
    with (t * (other - target)) by ring.
  replace (target * (1 - t) + other * t - other)
    with ((1 - t) * - (other - target)) by ring.
  rewrite !Rabs_mult, Rabs_Ropp, (Rabs_pos_eq t), (Rabs_pos_eq (1 - t))
    by lra.
  pose proof (Rabs_pos (other - target)). nra.
Qed.

Lemma blend_between (target other t : R) :
  0 <= t <= 0.5 ->
  Rmin target other <= target * (1 - t) + other * t <= Rmax target other.
Proof.
  intros Ht. unfold Rmin, Rmax. destruct (Rle_dec target other); nra.
Qed.

(** X13: a merge never loses accuracy and never leaves the two positions:
    for accuracies that are not negative, the merged entry is as accurate
    as the better of the two, each of its coordinates lies between those of
    the sample and of the last entry and is at least as near to the more
    accurate of the two as to the other, and its timestamp lies between the
    two timestamps. *)
Theorem merged_entry_favours_the_more_accurate
    (lastEntry : LocationHistoryEntry.t) (coord : Coord)
    (location : GeolocationPosition) :
  let lastCoord := LocationHistoryEntry.coord lastEntry in
  let sampleAcc := accuracy (coords location) in
  let lastAcc := LocationHistoryEntry.accuracy lastEntry in
  let merged := LocationHistoryEntry.coord
                  (mergedEntry lastEntry coord location) in
  0 <= sampleAcc -> 0 <= lastAcc ->
  mergeCondition lastEntry coord location = true ->
  (LocationHistoryEntry.accuracy (mergedEntry lastEntry coord location)
   <= sampleAcc
   /\ LocationHistoryEntry.accuracy (mergedEntry lastEntry coord location)
      <= lastAcc)
  /\ (Rmin coord.1 lastCoord.1 <= merged.1 <= Rmax coord.1 lastCoord.1
      /\ Rmin coord.2 lastCoord.2 <= merged.2 <= Rmax coord.2 lastCoord.2)
  /\ (sampleAcc < lastAcc ->
      Rabs (merged.1 - coord.1) <= Rabs (merged.1 - lastCoord.1)
      /\ Rabs (merged.2 - coord.2) <= Rabs (merged.2 - lastCoord.2))
  /\ (lastAcc <= sampleAcc ->
      Rabs (merged.1 - lastCoord.1) <= Rabs (merged.1 - coord.1)
      /\ Rabs (merged.2 - lastCoord.2) <= Rabs (merged.2 - coord.2))
  /\ Rmin (timestamp location) (LocationHistoryEntry.timestamp lastEntry)
     <= LocationHistoryEntry.timestamp (mergedEntry lastEntry coord location)
     <= Rmax (timestamp location) (LocationHistoryEntry.timestamp lastEntry).
Proof.
  intros lastCoord sampleAcc lastAcc merged Hs Hl Hm.
  apply mergeCondition_true in Hm as [Hd _].
  pose proof (distance_nonneg coord (LocationHistoryEntry.coord lastEntry))
    as Hpos.
  assert (0 < Rmax sampleAcc lastAcc) as Hmax.
  { rewrite Rmax_comm. fold lastAcc sampleAcc in Hd. lra. }
  pose proof (coordMergeT_range sampleAcc lastAcc Hs Hl Hmax) as Ht.
  subst merged. unfold mergedEntry. cbv zeta.
  cbn [LocationHistoryEntry.coord LocationHistoryEntry.accuracy
       LocationHistoryEntry.timestamp].
  unfold JS.Math_min, JS.Math_max. fold lastCoord sampleAcc lastAcc.
  set (t := Rmin sampleAcc lastAcc / Rmax sampleAcc lastAcc * 0.5) in *.
  split; [split; [apply Rmin_l | apply Rmin_r]|].
  unfold JS.lt. destruct (Rlt_dec sampleAcc lastAcc) as [Hlt|Hge];
    cbn [fst snd].
  - split; [split; by apply blend_between|].
    split; [intros _; split; by apply blend_nearer_target|].
    split; [lra|]. unfold Rmin, Rmax. destruct (Rle_dec _ _); lra.
  - split.
    { rewrite (Rmin_comm coord.1), (Rmax_comm coord.1),
        (Rmin_comm coord.2), (Rmax_comm coord.2).
      split; by apply blend_between. }
    split; [lra|].
    split; [intros _; split; by apply blend_nearer_target|].
    unfold Rmin, Rmax. destruct (Rle_dec _ _); lra.
Qed.

Lemma merged_entry_favours_the_more_accurate_witness :
  let location :=
    {| coords := {| latitude := 0; longitude := 0; accuracy := 5 |};
       timestamp := 1000 |} in
  let lastEntry :=
    {| LocationHistoryEntry.coord := positionCoord location;
       LocationHistoryEntry.accuracy := 50;
       LocationHistoryEntry.timestamp := 0 |} in
  mergeCondition lastEntry (positionCoord location) location = true
  /\ LocationHistoryEntry.accuracy
       (mergedEntry lastEntry (positionCoord location) location) <= 5.
Proof.
  intros location lastEntry.
  assert (mergeCondition lastEntry (positionCoord location) location = true)
    as Hm.
  { apply mergeCondition_true.
    cbn [LocationHistoryEntry.coord lastEntry]. rewrite distance_same. cbn.
    unfold Rmax. destruct (Rle_dec 50 5); lra. }
  assert (0 <= accuracy (coords location)) as Hs by (cbn; lra).
  assert (0 <= LocationHistoryEntry.accuracy lastEntry) as Hl by (cbn; lra).
  split; [exact Hm|].
  destruct (merged_entry_favours_the_more_accurate
              lastEntry (positionCoord location) location Hs Hl Hm)
    as ((Hacc & _) & _).
  exact Hacc.
Defined.

(** ** Timestamps *)

Lemma timestampsAscend_snoc (history : list LocationHistoryEntry.t)
    (newEntry : LocationHistoryEntry.t) :
  timestampsAscend history ->
  (forall entry, entry ∈ history ->
     LocationHistoryEntry.timestamp entry
     <= LocationHistoryEntry.timestamp newEntry) ->
  timestampsAscend (history ++ [newEntry]).
Proof.
  intros Hasc Hle i j a b Hij Hi Hj.
  apply lookup_app_Some in Hj as [Hj|[Hlen Hj]].
  - apply lookup_app_Some in Hi as [Hi|[Hlen' _]].
    + by apply (Hasc i j).
    + apply lookup_lt_Some in Hj. lia.
  - apply list_lookup_singleton_Some in Hj as [_ <-].
    apply lookup_app_Some in Hi as [Hi|[_ Hi]].
    + apply Hle. by eapply list_elem_of_lookup_2.
    + apply list_lookup_singleton_Some in Hi as [_ <-]. lra.
Qed.

Lemma timestampsAscend_run
    (dropped kept replaced : list LocationHistoryEntry.t) :
  timestampsAscend (dropped ++ kept ++ replaced) -> timestampsAscend kept.
Proof.
  intros Hasc i j a b Hij Hi Hj.
  apply (Hasc (length dropped + i)%nat (length dropped + j)%nat); [lia|..].
  - rewrite lookup_app_r by lia.
    replace (length dropped + i - length dropped)%nat with i by lia.
    by apply lookup_app_l_Some.
  - rewrite lookup_app_r by lia.
    replace (length dropped + j - length dropped)%nat with j by lia.
    by apply lookup_app_l_Some.
Qed.

Lemma timestampsAscend_last (history : list LocationHistoryEntry.t)
    (lastEntry entry : LocationHistoryEntry.t) :
  timestampsAscend history -> last history = Some lastEntry ->
  entry ∈ history ->
  LocationHistoryEntry.timestamp entry
  <= LocationHistoryEntry.timestamp lastEntry.
Proof.
  intros Hasc Hlast [i Hi]%list_elem_of_lookup_1.
  rewrite last_lookup in Hlast.
  apply (Hasc i (Nat.pred (length history))); [|done..].
  apply lookup_lt_Some in Hi. lia.
Qed.

(** The shape of the new history: a run of the old one and a new entry,
    which is the sample's or, after a merge, the blend with the last. *)
Lemma nextHistory_shape (history : list LocationHistoryEntry.t)
    (coord : Coord) (location : GeolocationPosition) :
  exists (dropped kept replaced : list LocationHistoryEntry.t)
         (newEntry : LocationHistoryEntry.t),
    nextHistory history coord location = kept ++ [newEntry]
    /\ history = dropped ++ kept ++ replaced
    /\ (newEntry = sampleEntry coord location
        \/ exists lastEntry,
             last history = Some lastEntry
             /\ newEntry = mergedEntry lastEntry coord location).
Proof.
  pose proof (take_drop (length history - MAX_HISTORY_LENGTH) history)
    as Hsplit.
  pose proof (spliceHistory_last history) as Hsame.
  unfold nextHistory. cbv zeta. rewrite spliceHistory_drop in *.
  destruct (last (drop _ history)) as [lastEntry|] eqn:Hlast.
  - destruct (mergeCondition lastEntry coord location).
    + apply last_Some in Hlast as [kept Hkept]. rewrite Hkept in *.
      rewrite removelast_last.
      exists (take (length history - MAX_HISTORY_LENGTH) history), kept,
        [lastEntry], (mergedEntry lastEntry coord location).
      split; [done|]. split; [by rewrite Hsplit|]. right. by exists lastEntry.
    + exists (take (length history - MAX_HISTORY_LENGTH) history),
        (drop (length history - MAX_HISTORY_LENGTH) history),
        [], (sampleEntry coord location).
      split; [done|]. rewrite app_nil_r. split; [by rewrite Hsplit|].
      by left.
  - exists (take (length history - MAX_HISTORY_LENGTH) history),
      (drop (length history - MAX_HISTORY_LENGTH) history),
      [], (sampleEntry coord location).
    split; [done|]. rewrite app_nil_r. split; [by rewrite Hsplit|]. by left.
Qed.

Lemma nextHistory_timestampsAscend (history : list LocationHistoryEntry.t)
    (coord : Coord) (location : GeolocationPosition) :
  timestampsAscend history ->
  (forall lastEntry, last history = Some lastEntry ->
     LocationHistoryEntry.timestamp lastEntry <= timestamp location) ->
  timestampsAscend (nextHistory history coord location)
  /\ forall lastEntry,
       last (nextHistory history coord location) = Some lastEntry ->
       LocationHistoryEntry.timestamp lastEntry <= timestamp location.
Proof.
  intros Hasc Hlast.
  destruct (nextHistory_shape history coord location)
    as (dropped & kept & replaced & newEntry & -> & Hhist & Hnew).
  assert (forall entry, entry ∈ kept -> entry ∈ history) as Hin.
  { intros entry He. rewrite Hhist.
    apply elem_of_app. right. apply elem_of_app. by left. }
  assert (timestampsAscend kept) as Hkept.
  { apply (timestampsAscend_run dropped kept replaced). by rewrite <- Hhist. }
  assert (forall entry, entry ∈ kept ->
            LocationHistoryEntry.timestamp entry
            <= LocationHistoryEntry.timestamp newEntry
          /\ LocationHistoryEntry.timestamp newEntry <= timestamp location)
    as Hle.
  { intros entry He%Hin. destruct (last history) as [l|] eqn:Hl.
    - pose proof (timestampsAscend_last history l entry Hasc Hl He).
      pose proof (Hlast l eq_refl).
      destruct Hnew as [->|(l' & [= <-] & ->)]; cbn; lra.
    - apply last_None in Hl. subst history. by apply elem_of_nil in He. }
  split.
  - apply timestampsAscend_snoc; [done|]. intros entry He. by apply Hle.
  - intros lastEntry. rewrite last_snoc. intros [= <-].
    destruct Hnew as [->|(l' & Hl' & ->)]; cbn; [lra|].
    pose proof (Hlast l' Hl'). lra.
Qed.

(** X14: fixes that arrive in the order of their timestamps leave a
    history sorted by timestamp, merged entries included, provided the
    history was sorted and not ahead of the first fix. *)
Theorem history_stays_sorted_by_timestamp
    (positions : list GeolocationPosition) :
  forall (history : list LocationHistoryEntry.t) (start : R),
  timestampsAscend history ->
  (forall lastEntry, last history = Some lastEntry ->
     LocationHistoryEntry.timestamp lastEntry <= start) ->
  arriveInOrder start positions ->
  timestampsAscend (compactAll history positions).
Proof.
  induction positions as [|position rest IH];
    intros history start Hasc Hlast Horder; [done|].
  destruct Horder as [Hstart Hrest]. cbn [compactAll foldl].
  destruct (nextHistory_timestampsAscend history
              (positionCoord position) position Hasc) as [Hnext Hlast'].
  { intros lastEntry Hl. pose proof (Hlast lastEntry Hl). lra. }
  by apply (IH _ (timestamp position)).
Qed.

Lemma history_stays_sorted_by_timestamp_witness :
  arriveInOrder 0 (rawSamples 3)
  /\ timestampsAscend (compactAll [] (rawSamples 3)).
Proof.
  assert (timestampsAscend []) as Hasc by (intros i j a b _ Hi; done).
  assert (forall lastEntry : LocationHistoryEntry.t,
            last [] = Some lastEntry ->
            LocationHistoryEntry.timestamp lastEntry <= 0) as Hlast
    by (intros lastEntry Hl; done).
  assert (arriveInOrder 0 (rawSamples 3)) as Horder.
  { cbn. repeat split; lra. }
  split; [exact Horder|].
  exact (history_stays_sorted_by_timestamp (rawSamples 3) [] 0
           Hasc Hlast Horder).
Defined.

(** ** [listeningSignal], over whole runs *)

Section ListeningSignalRuns.
Context {T : Type} `{!EqDecision T}.
Implicit Types (s : listeningSignal.State T) (value : T).

Import listeningSignal.

Lemma subscriptionsBalanced_step s (e : Event T) :
  subscriptionsBalanced s -> subscriptionsBalanced (step s e).
Proof.
  unfold subscriptionsBalanced. intros Hs. destruct e as [|value|].
  - cbn [step]. unfold read. destruct (memo s); [done|].
    unfold callback, subscribe. destruct (cleanup s) eqn:Hc; cbn.
    + by rewrite Hc.
    + lia.
  - done.
  - cbn [step]. unfold timeout. destruct (timers s); [done|].
    unfold idleCheck, unsubscribe. cbn.
    destruct (used s), (cleanup s); cbn; lia.
Qed.

Lemma sigState_step s (e : Event T) :
  sigState (step s e)
  = match e with Update value => Some value | _ => sigState s end.
Proof.
  destruct e as [|value|]; [|done|].
  - cbn [step]. unfold read. destruct (memo s); [done|].
    unfold callback. by destruct (cleanup s).
  - cbn [step]. unfold timeout. destruct (timers s); [done|].
    unfold idleCheck. cbn. by destruct (used s), (cleanup s).
Qed.

Lemma sigState_run (events : list (Event T)) : forall s,
  sigState (run events s)
  = foldl (fun pushed e =>
             match e with Update value => Some value | _ => pushed end)
          (sigState s) events.
Proof.
  induction events as [|e events IH]; intros s; [done|].
  cbn [run foldl]. fold (run events (step s e)).
  rewrite IH, sigState_step. by destruct e.
Qed.

(** X15: in every state an adapter reaches, at most one subscription is
    held: [setup] has been called exactly once more than the teardown when
    a [cleanup] is at hand, and exactly as often when none is; so [setup]
    is never called while a subscription is held, and the teardown is
    never called without one or twice for one. *)
Theorem at_most_one_subscription (events : list (Event T)) :
  let s := run events init in
  match cleanup s with
  | Some k =>
      setupCalls s = S (teardownCalls s) /\ setupCalls s = S k
  | None => setupCalls s = teardownCalls s
  end.
Proof.
  cbv zeta. change (subscriptionsBalanced (run events (init (T := T)))).
  assert (forall s, subscriptionsBalanced s ->
                    subscriptionsBalanced (run events s)) as Hrun.
  { induction events as [|e events IH]; intros s Hs; [done|].
    cbn [run foldl]. apply IH. by apply subscriptionsBalanced_step. }
  by apply Hrun.
Qed.

(** X16: a read returns the value pushed last, whatever reads, pushes and
    checks came before, teardowns included; it returns [undefined] only
    when nothing was pushed yet. *)
Theorem read_returns_the_last_pushed_value (events : list (Event T)) :
  (read (run events init)).1 = lastPushed events.
Proof.
  rewrite read_value by (apply consistent_run, consistent_init).
  by rewrite sigState_run.
Qed.

(** X17: without a new push nothing is torn down: once a read has set
    [used], reads and checks, however many, leave the subscription, the
    call counts and the value as they are. *)
Theorem no_teardown_without_a_new_update s (k : nat)
    (events : list (Event T)) :
  used s = true -> cleanup s = Some k -> noUpdate events ->
  cleanup (run events s) = Some k
  /\ teardownCalls (run events s) = teardownCalls s
  /\ setupCalls (run events s) = setupCalls s
  /\ sigState (run events s) = sigState s.
Proof.
  revert s. induction events as [|e events IH]; intros s Hu Hc Hno; [done|].
  apply Forall_cons in Hno as [He Hno]. cbn [run foldl].
  fold (run events (step s e)).
  assert (used (step s e) = true /\ cleanup (step s e) = Some k
          /\ teardownCalls (step s e) = teardownCalls s
          /\ setupCalls (step s e) = setupCalls s
          /\ sigState (step s e) = sigState s) as (Hu' & Hc' & <- & <- & <-).
  { destruct e as [|value|]; [|done|].
    - cbn [step]. unfold read. destruct (memo s); [done|].
      unfold callback. by rewrite Hc.
    - cbn [step]. rewrite timeout_used by done. done. }
  by apply IH.
Qed.

End ListeningSignalRuns.

Lemma no_teardown_without_a_new_update_witness :
  let s :=
    listeningSignal.run
      [listeningSignal.Read; listeningSignal.Update 7%nat;
       listeningSignal.Read]
      listeningSignal.init in
  let events :=
    [listeningSignal.Timeout; listeningSignal.Read; listeningSignal.Timeout]
  in
  listeningSignal.used s = true
  /\ listeningSignal.teardownCalls (listeningSignal.run events s) = 0%nat.
Proof.
  intros s events.
  assert (listeningSignal.used s = true) as Hu by reflexivity.
  assert (listeningSignal.cleanup s = Some 0%nat) as Hc by reflexivity.
  assert (listeningSignal.noUpdate events) as Hno
    by (repeat constructor).
  split; [exact Hu|].
  destruct (no_teardown_without_a_new_update s 0%nat events Hu Hc Hno)
    as (_ & Ht & _).
  exact Ht.
Defined.

(** ** The orientation sources *)

(** X18: the compass heading is the absolute heading whenever the absolute
    source has one, and then the relative source is not read (so not
    subscribed by this read); otherwise it is the heading of the relative
    source, which is read. *)
Theorem compassHeading_prefers_the_absolute_source
    (signals : OrientationSignals) :
  let absoluteRead :=
    listeningSignal.read (absoluteDeviceOrientation signals) in
  let relativeRead := listeningSignal.read (deviceOrientation signals) in
  let heading (orientation : option DeviceOrientationEvent) : option R :=
    match orientation with
    | Some event => alpha event
    | None => None
    end in
  absoluteDeviceOrientation (compassHeading signals).2 = absoluteRead.2
  /\ (forall h : R,
        heading absoluteRead.1 = Some h ->
        (compassHeading signals).1 = Some h
        /\ deviceOrientation (compassHeading signals).2
           = deviceOrientation signals)
  /\ (heading absoluteRead.1 = None ->
      (compassHeading signals).1 = heading relativeRead.1
      /\ deviceOrientation (compassHeading signals).2 = relativeRead.2).
Proof.
  cbv zeta. unfold compassHeading, deviceOrientationAbsoluteWhenAvailable.
  destruct (listeningSignal.read (absoluteDeviceOrientation signals))
    as [[[[h|] ab]|] adapter]; cbn;
    destruct (listeningSignal.read (deviceOrientation signals))
      as [orientation radapter]; cbn; repeat split; try done.
Qed.

(** ** Listeners and watches *)

Lemma filter_all {A : Type} (P : A -> Prop) `{!forall x, Decision (P x)}
    (l : list A) :
  Forall P l -> filter P l = l.
Proof.
  induction 1 as [|x l Hx Hl IH]; [done|].
  rewrite filter_cons_True by done. by rewrite IH.
Qed.

(** X19: the teardown of the orientation sources does not take their
    listener off the window: [setup] registers a capturing listener, the
    teardown removes a non-capturing one, so after [setup] and teardown the
    listener of a new callback is still registered, for both sources. *)
Theorem orientation_teardown_leaves_the_listener
    (callback : nat) (listeners : list EventListener) :
  Forall (fun registered => listenerCallback registered <> callback)
         listeners ->
  let relative := deviceOrientationSetup callback listeners in
  let absoluteSource := absoluteDeviceOrientationSetup callback listeners in
  (relative.1
   = listeners
     ++ [ {| listenerType := "deviceorientation";
             listenerCallback := callback; listenerCapture := true |} ]
   /\ relative.2 relative.1 = relative.1)
  /\ (absoluteSource.1
      = listeners
        ++ [ {| listenerType := "deviceorientationabsolute";
                listenerCallback := callback; listenerCapture := true |} ]
      /\ absoluteSource.2 absoluteSource.1 = absoluteSource.1).
Proof.
  intros Hfresh. cbv zeta.
  assert (forall type capture,
            {| listenerType := type; listenerCallback := callback;
               listenerCapture := capture |} ∉ listeners) as Hnotin.
  { intros type capture Hin.
    rewrite Forall_forall in Hfresh. by apply (Hfresh _ Hin). }
  unfold deviceOrientationSetup, absoluteDeviceOrientationSetup,
    addEventListener, removeEventListener. cbn [fst snd].
  rewrite !bool_decide_eq_false_2 by apply Hnotin.
  split; (split; [done|]); apply filter_all, Forall_app;
    (split; [|by repeat constructor]);
    apply Forall_forall; intros registered Hin ->; by eapply Hnotin.
Qed.

Lemma orientation_teardown_leaves_the_listener_witness :
  let relative := deviceOrientationSetup 0 [] in
  relative.2 relative.1
  = [ {| listenerType := "deviceorientation";
         listenerCallback := 0%nat; listenerCapture := true |} ].
Proof.
  intros relative.
  assert (Forall (fun registered : EventListener =>
                    listenerCallback registered <> 0%nat) []) as Hfresh
    by constructor.
  destruct (orientation_teardown_leaves_the_listener 0 [] Hfresh)
    as ((Hset & Hdown) & _).
  exact (eq_trans Hdown Hset).
Defined.

(** X20: the teardown of the geolocation source releases its watch: after
    [setup] and teardown the running watches are those from before, and a
    later [setup] gets a new id. *)
Theorem geolocation_teardown_clears_the_watch (geolocation : Geolocation) :
  watchesIssued geolocation ->
  let subscribed := geolocationSetup geolocation in
  watches subscribed.1 = watches geolocation ++ [nextWatchId geolocation]
  /\ watches (subscribed.2 subscribed.1) = watches geolocation
  /\ watchesIssued (subscribed.2 subscribed.1)
  /\ (watchPosition (subscribed.2 subscribed.1)).1
     <> nextWatchId geolocation.
Proof.
  intros Hissued. cbv zeta.
  unfold geolocationSetup, watchPosition, clearWatch. cbn.
  unfold watchesIssued in *. split; [done|].
  assert (filter (fun watch => watch <> nextWatchId geolocation)
            (watches geolocation ++ [nextWatchId geolocation])
          = watches geolocation) as ->.
  { rewrite filter_app, filter_cons_False, filter_nil, app_nil_r
      by (intros Hne; by apply Hne).
    apply filter_all. eapply Forall_impl; [exact Hissued|].
    cbn. lia. }
  split; [done|]. split; [|lia].
  eapply Forall_impl; [exact Hissued|]. cbn. lia.
Qed.

Lemma geolocation_teardown_clears_the_watch_witness :
  let geolocation := {| watches := [0%nat]; nextWatchId := 1 |} in
  let subscribed := geolocationSetup geolocation in
  watches subscribed.1 = [0%nat; 1%nat]
  /\ watches (subscribed.2 subscribed.1) = [0%nat].
Proof.
  intros geolocation subscribed.
  assert (watchesIssued geolocation) as Hissued
    by (repeat constructor).
  destruct (geolocation_teardown_clears_the_watch geolocation Hissued)
    as (Hset & Hdown & _).
  split; [exact Hset | exact Hdown].
Defined.

(** ** [asyncComputed], over whole runs *)

Section AsyncComputedRuns.
Context {T : Type}.
Implicit Types (s : asyncComputed.State T) (result : T).

Import asyncComputed.

Lemma resolve_newer s (count : nat) result :
  newer (sigState s) count ->
  sigState (resolve count result s) = Some (count, result).
Proof.
  unfold newer, resolve. destruct (sigState s) as [current|]; [|done].
  intros Hlt. by apply Nat.ltb_lt in Hlt as ->.
Qed.

Lemma resolve_not_newer s (count : nat) result :
  ~ newer (sigState s) count -> resolve count result s = s.
Proof.
  unfold newer, resolve. destruct (sigState s) as [current|]; [|done].
  intros Hge. destruct (Nat.ltb_spec current.1 count); [done|done].
Qed.

Lemma newer_dec (current : option (nat * T)) (count : nat) :
  newer current count \/ ~ newer current count.
Proof.
  unfold newer. destruct current as [current|]; [|by left].
  destruct (Nat.lt_ge_cases current.1 count); [by left|right; lia].
Qed.

(** After calls have settled, either none of them was newer than the result
    applied before, which is still there, or the applied result is one of
    theirs, newer than the one before and with the highest count. *)
Lemma resolveAll_result (settled : list (nat * T)) : forall s,
  (sigState (resolveAll settled s) = sigState s
   /\ Forall (fun call => ~ newer (sigState s) call.1) settled)
  \/ (exists call,
        sigState (resolveAll settled s) = Some call
        /\ call ∈ settled
        /\ newer (sigState s) call.1
        /\ Forall (fun other => (other.1 <= call.1)%nat) settled).
Proof.
  induction settled as [|[count result] settled IH]; intros s.
  - left. by split.
  - cbn [resolveAll foldl fst snd].
    fold (resolveAll settled (resolve count result s)).
    destruct (newer_dec (sigState s) count) as [Hnew|Hold].
    + pose proof (resolve_newer s count result Hnew) as Hs.
      destruct (IH (resolve count result s))
        as [[Hsame Hall]|(call & Hcall & Hin & Hnewer & Hall)];
        rewrite Hs in *; right.
      * exists (count, result). split; [by rewrite Hsame|].
        split; [by left|]. split; [done|]. constructor; [done|].
        eapply Forall_impl; [exact Hall|]. cbn. lia.
      * exists call. split; [done|]. split; [by right|].
        cbn in Hnewer. split.
        { unfold newer in *. destruct (sigState s); [lia|done]. }
        constructor; [cbn; lia|done].
    + rewrite (resolve_not_newer s count result Hold).
      destruct (IH s) as [[Hsame Hall]|(call & Hcall & Hin & Hnewer & Hall)].
      * left. split; [done|]. by constructor.
      * right. exists call. split; [done|]. split; [by right|].
        split; [done|]. constructor; [|done]. cbn.
        unfold newer in *. destruct (sigState s); [lia|by destruct Hold].
Qed.

Lemma unique_count (settled : list (nat * T)) (count : nat)
    (result result' : T) :
  NoDup (map fst settled) ->
  (count, result) ∈ settled -> (count, result') ∈ settled ->
  result = result'.
Proof.
  induction settled as [|[c r] settled IH]; intros Hnd Hin Hin'.
  - by apply elem_of_nil in Hin.
  - cbn in Hnd. apply NoDup_cons in Hnd as [Hc Hnd].
    apply elem_of_cons in Hin as [Heq|Hin];
      apply elem_of_cons in Hin' as [Heq'|Hin'].
    + congruence.
    + injection Heq as <- <-. destruct Hc. apply list_elem_of_fmap.
      by exists (count, result').
    + injection Heq' as <- <-. destruct Hc. apply list_elem_of_fmap.
      by exists (count, result).
    + by apply IH.
Qed.

(** X21: the order in which calls complete does not matter: when calls
    with distinct counts settle, the applied result is the same for every
    order of settling, and when nothing was applied before it is the
    result of the call with the highest count. *)
Theorem highest_count_wins_in_any_order
    (settled settled' : list (nat * T)) s :
  NoDup (map fst settled) ->
  settled ≡ₚ settled' ->
  sigState (resolveAll settled' s) = sigState (resolveAll settled s)
  /\ output (resolveAll settled' s) = output (resolveAll settled s)
  /\ (sigState s = None -> settled <> [] ->
      exists call,
        call ∈ settled
        /\ sigState (resolveAll settled s) = Some call
        /\ Forall (fun other => (other.1 <= call.1)%nat) settled).
Proof.
  intros Hnd Hperm.
  assert (sigState (resolveAll settled' s)
          = sigState (resolveAll settled s)) as Heq.
  { destruct (resolveAll_result settled s)
      as [[-> Hall]|(call & -> & Hin & Hnew & Hall)];
      destruct (resolveAll_result settled' s)
        as [[-> Hall']|(call' & -> & Hin' & Hnew' & Hall')].
    - done.
    - rewrite <- Hperm in Hin'. rewrite Forall_forall in Hall.
      by destruct (Hall _ Hin').
    - rewrite Hperm in Hin. rewrite Forall_forall in Hall'.
      by destruct (Hall' _ Hin).
    - rewrite <- Hperm in Hin', Hall'. rewrite Forall_forall in Hall, Hall'.
      pose proof (Hall _ Hin'). pose proof (Hall' _ Hin).
      destruct call as [c r], call' as [c' r']. cbn in *.
      assert (c' = c) as -> by lia.
      by rewrite (unique_count settled c r' r Hnd Hin' Hin). }
  split; [done|]. split; [unfold output; by rewrite Heq|].
  intros Hnone Hne.
  destruct (resolveAll_result settled s)
    as [[_ Hall]|(call & Hcall & Hin & _ & Hall)].
  - destruct settled as [|call settled]; [done|].
    apply Forall_cons in Hall as [Hcall _]. rewrite Hnone in Hcall.
    by destruct Hcall.
  - by exists call.
Qed.

(** X22: the output never falls back: no event lowers the count of the
    applied result or makes a defined output undefined, and only a
    resolution can change the output at all, so starts and failures leave
    it as it is; before any resolution it is [undefined]. *)
Theorem output_never_falls_back s (e : Event T) :
  (forall count : nat,
     appliedCount s = Some count ->
     exists count', appliedCount (step s e) = Some count'
                    /\ (count <= count')%nat)
  /\ match e with
     | Resolve _ _ => True
     | _ => output (step s e) = output s
     end
  /\ output (init (T := T)) = None.
Proof.
  split; [|split; [by destruct e|done]].
  intros count Hcount. unfold appliedCount in *.
  destruct (sigState s) as [current|] eqn:Hs; [|done].
  injection Hcount as <-. destruct e as [|c result|c].
  - exists current.1. cbn. by rewrite Hs.
  - cbn [step]. destruct (c <? counter s)%nat;
      [|exists current.1; by rewrite Hs].
    unfold resolve. rewrite Hs.
    destruct (Nat.ltb_spec current.1 c).
    + exists c. cbn. split; [done|lia].
    + exists current.1. by rewrite Hs.
  - exists current.1. cbn [step]. unfold reject. by rewrite Hs.
Qed.

End AsyncComputedRuns.

Lemma highest_count_wins_in_any_order_witness :
  let settled := [(0%nat, "slow"%string); (1%nat, "fast"%string)] in
  let settled' := [(1%nat, "fast"%string); (0%nat, "slow"%string)] in
  NoDup (map fst settled)
  /\ asyncComputed.output
       (asyncComputed.resolveAll settled' asyncComputed.init)
     = asyncComputed.output
         (asyncComputed.resolveAll settled asyncComputed.init).
Proof.
  intros settled settled'.
  assert (NoDup (map fst settled)) as Hnd.
  { cbn. apply NoDup_cons. split; [|apply NoDup_singleton].
    intros Hin%list_elem_of_singleton. discriminate. }
  assert (settled ≡ₚ settled') as Hperm by apply perm_swap.
  split; [exact Hnd|].
  destruct (highest_count_wins_in_any_order settled settled'
              asyncComputed.init Hnd Hperm) as (_ & Hout & _).
  exact Hout.
Defined.

(** ** The two revisions of the bookmark store *)

Section Revisions.
Context `{!JSON (list LocationBookmark.t)}.

Lemma drawn_app (points more : list LocationBookmark.t) :
  drawn (points ++ more) = drawn points ++ drawn more.
Proof. apply List.map_app. Qed.

Lemma alike_act (legacy : LegacyCompassRadar.t) (this : CompassRadar)
    (action : BookmarkAction) :
  alike legacy this -> alike (legacyAct legacy action) (act this action).
Proof.
  intros (points & value & Hp & Hget & Harray & Hdrawn).
  destruct action as [point random now|].
  - cbn [legacyAct act]. unfold LegacyCompassRadar.addBookmark, addBookmark.
    rewrite Hp, Hget.
    assert (asArray value = Return (arrayOf value)) as ->
      by (by destruct Harray as [->|[array ->]]).
    unfold localStorageValue.set. cbn [snd].
    eexists _, _. split; [reflexivity|]. split; [reflexivity|].
    split; [right; by eexists|]. cbn [arrayOf].
    rewrite (drawn_app points).
    etrans; [apply (drawn_app (arrayOf value))|]. by rewrite Hdrawn.
  - cbn [legacyAct act].
    unfold LegacyCompassRadar.clearBookmarks, clearBookmarks,
      localStorageValue.clear.
    exists [], None. split; [done|]. split; [|split; [by left|done]].
    unfold localStorageValue.get. cbn [bookmarks localStorage].
    by rewrite lookup_delete_eq.
Qed.

(** X23: the two revisions of the bookmark store draw the same bookmarks
    when the earlier one starts with an array (nothing stored, or a stored
    text that denotes an array of bookmarks): started in the same browser,
    after the same additions and clearings, [bookmarks.get()] of the later
    revision does not throw and returns [undefined] or an array, and
    [bookmarks.get() ?? []] has the coordinates and hues, in order, of
    [points] of the earlier one, which is an array. *)
Theorem revisions_draw_the_same_bookmarks
    (storage : gmap string string) (legacy : LegacyCompassRadar.t)
    (initial : list LocationBookmark.t) (actions : list BookmarkAction) :
  LegacyCompassRadar.constructor storage = Return legacy ->
  LegacyCompassRadar.points legacy = Some (OfType initial) ->
  let this :=
    {| localStorage := storage; bookmarks := None;
       locationHistory := None |} in
  exists (value : option (Stored (list LocationBookmark.t)))
         (points : list LocationBookmark.t),
    (getBookmarks (foldl act this actions)).1 = Return value
    /\ (value = None \/ exists array, value = Some (OfType array))
    /\ LegacyCompassRadar.points (foldl legacyAct legacy actions)
       = Some (OfType points)
    /\ drawn (arrayOf value) = drawn points.
Proof.
  intros Hlegacy Hinitial this.
  assert (alike legacy this) as Hstart.
  { unfold alike, LegacyCompassRadar.constructor in *.
    unfold localStorageValue.get. cbn [bookmarks localStorage this].
    change LegacyCompassRadar.localStorageKey with bookmarksKey in Hlegacy.
    destruct (storage !! bookmarksKey) as [text|].
    - destruct (String.eqb text "").
      + injection Hlegacy as <-. exists [], None. by eauto.
      + destruct (JSON_parse text) as [parsed|]; [|done].
        injection Hlegacy as <-. cbn in Hinitial.
        injection Hinitial as ->.
        exists initial, (Some (OfType initial)).
        split; [done|]. split; [done|]. split; [right; by eexists|done].
    - injection Hlegacy as <-. exists [], None. by eauto. }
  assert (forall legacy' this',
            alike legacy' this' ->
            alike (foldl legacyAct legacy' actions)
                  (foldl act this' actions)) as Hrun.
  { induction actions as [|action actions IH]; intros legacy' this' Ha;
      [done|].
    cbn [foldl]. apply IH. by apply alike_act. }
  destruct (Hrun legacy this Hstart)
    as (points & value & Hp & Hget & Harray & Hd).
  exists value, points. unfold getBookmarks. rewrite Hget. done.
Qed.

(** Where the revisions part: with a stored text that denotes [null], the
    earlier revision adds nothing, and writes nothing, while the later one
    stores the bookmark. *)
Lemma revisions_differ_on_stored_null
    (storage : gmap string string) (legacy : LegacyCompassRadar.t)
    (text : string) (point : Coord) (random now : R) :
  storage !! bookmarksKey = Some text ->
  text <> ""%string ->
  JSON_parse text = Some (NotOfType ForeignNull) ->
  LegacyCompassRadar.constructor storage = Return legacy ->
  let this :=
    {| localStorage := storage; bookmarks := None;
       locationHistory := None |} in
  legacyAct legacy (AddBookmark point random now) = legacy
  /\ LegacyCompassRadar.points legacy = Some (NotOfType ForeignNull)
  /\ bookmarks (act this (AddBookmark point random now))
     = Some (OfType [newBookmark (point, random, now)]).
Proof.
  intros Hstored Htext Hparse Hlegacy this.
  unfold LegacyCompassRadar.constructor in Hlegacy.
  change LegacyCompassRadar.localStorageKey with bookmarksKey in Hlegacy.
  rewrite Hstored in Hlegacy. apply String.eqb_neq in Htext.
  rewrite Htext, Hparse in Hlegacy. injection Hlegacy as <-.
  split; [done|]. split; [done|].
  cbn [act]. unfold addBookmark, localStorageValue.get.
  cbn [bookmarks localStorage this]. rewrite Hstored, Htext, Hparse. done.
Qed.

End Revisions.

Lemma revisions_draw_the_same_bookmarks_witness :
  let actions :=
    [AddBookmark (0, 0) 0.5 1000; ClearBookmarks; AddBookmark (1, 1) 0 2000]
  in
  LegacyCompassRadar.constructor (JSON0 := writeOnlyJSON) ∅
  = Return {| LegacyCompassRadar.points := Some (OfType []);
              LegacyCompassRadar.localStorage := ∅ |}
  /\ exists (value : option (Stored (list LocationBookmark.t)))
            (points : list LocationBookmark.t),
       (getBookmarks (JSON0 := writeOnlyJSON)
          (foldl (act (JSON0 := writeOnlyJSON)) emptyComponent actions)).1
       = Return value
       /\ LegacyCompassRadar.points
            (foldl (legacyAct (JSON0 := writeOnlyJSON))
               {| LegacyCompassRadar.points := Some (OfType []);
                  LegacyCompassRadar.localStorage := ∅ |} actions)
          = Some (OfType points)
       /\ drawn (arrayOf value) = drawn points.
Proof.
  intros actions.
  assert (LegacyCompassRadar.constructor (JSON0 := writeOnlyJSON) ∅
          = Return {| LegacyCompassRadar.points := Some (OfType []);
                      LegacyCompassRadar.localStorage := ∅ |}) as Hlegacy
    by reflexivity.
  split; [exact Hlegacy|].
  destruct (revisions_draw_the_same_bookmarks (JSON0 := writeOnlyJSON)
              ∅ _ [] actions Hlegacy eq_refl)
    as (value & points & Hget & _ & Hpoints & Hdrawn).
  exists value, points. split; [exact Hget|].
  split; [exact Hpoints | exact Hdrawn].
Defined.
